(** * TRelativeOrder: the relative order of windows and tabs

    A shallow embedding of the class [TRelativeOrder] (the window/tab
    order tracker of the extension) together with the collaborators it
    calls, and the properties of its public operations.

    Conventions of the embedding:
    - window ids, tab ids and positions are JavaScript integers, here [Z];
    - a JavaScript object used as a dictionary from ids to values is a
      [gmap Z _]; a missing property reads as [None] (JS [undefined]);
    - a JavaScript string is its sequence of UTF-16 code units;
    - a method that may throw returns a [completion] next to the state
      it leaves behind. *)

From Stdlib Require Import ZArith Lia List.
From stdpp Require Import base option list strings gmap pretty sorting.

Local Open Scope Z_scope.

(** ** JavaScript values used by the tracker *)

Module JS.

(** A string as its UTF-16 code units. *)
Abbreviation jsstring := (list N).

(** The literal with the given (ASCII) characters. *)
Fixpoint lit (s : string) : jsstring :=
  match s with
  | EmptyString => []
  | String c s' => Ascii.N_of_ascii c :: lit s'
  end.

(** WhiteSpace and LineTerminator code points of ECMAScript, the ones
    [String.prototype.trim] strips. *)
Definition isWhiteSpace (c : N) : bool :=
  (  (c =? 0x09) || (c =? 0x0A) || (c =? 0x0B) || (c =? 0x0C) || (c =? 0x0D)
  || (c =? 0x20) || (c =? 0xA0) || (c =? 0x1680)
  || ((0x2000 <=? c) && (c <=? 0x200A))
  || (c =? 0x2028) || (c =? 0x2029) || (c =? 0x202F) || (c =? 0x205F)
  || (c =? 0x3000) || (c =? 0xFEFF))%N.

Fixpoint trimStart (s : jsstring) : jsstring :=
  match s with
  | [] => []
  | c :: s' => if isWhiteSpace c then trimStart s' else s
  end.

Definition trimEnd (s : jsstring) : jsstring :=
  rev (trimStart (rev s)).

(** [s.trim()] *)
Definition trim (s : jsstring) : jsstring := trimEnd (trimStart s).

(** [`${n}`] for an integer [n]: its decimal numeral. *)
Definition Number_toString (n : Z) : jsstring := lit (pretty n).

(** Truthiness of a value that is a string or [undefined]. *)
Definition truthy (v : option jsstring) : bool :=
  match v with
  | Some (_ :: _) => true
  | _ => false
  end.

Inductive error : Type := TypeError.

(** How a call ends: it returns a value or throws. *)
Inductive completion (A : Type) : Type :=
| Return (a : A)
| Throw (e : error).
Global Arguments Return {A} a.
Global Arguments Throw {A} e.

End JS.
Import JS.

(** ** T1DLinkedList *)

Module T1DLinkedList.

(** Modelled from the spec: the class [T1DLinkedList] of "./linkedlist"
    is not among the sources.  The spec describes it as an ordered
    sequence of integer ids, the order of the sequence being the only
    record of position; the operations below follow the wording of its
    section 4.1. *)
Abbreviation t := (list Z).

(** Modelled from the spec: "created empty". *)
Definition new : t := [].

(** Modelled from the spec: "append(id) - adds id at the end"; no check
    for an id that is already there ("the source trusts callers"). *)
Definition append (id : Z) (l : t) : t := l ++ [id].

(** Modelled from the spec: an out-of-range position is clamped "to
    nearest valid bound": a negative one to the start, one beyond the
    length to the end. *)
Definition clamp (position : Z) (l : t) : nat :=
  Z.to_nat (Z.max 0 (Z.min position (Z.of_nat (length l)))).

(** Modelled from the spec: "insert(id, position) - inserts id so that
    it occupies position in the resulting order (0-based; out-of-range
    positions clamp ...)". *)
Definition insert (id position : Z) (l : t) : t :=
  take (clamp position l) l ++ id :: drop (clamp position l) l.

(** Modelled from the spec: "remove(id) - removes the element with that
    id; no-op ... if absent". *)
Fixpoint remove (id : Z) (l : t) : t :=
  match l with
  | [] => []
  | x :: l' => if decide (x = id) then l' else x :: remove id l'
  end.

(** Modelled from the spec: "move(id, newPosition) - removes then
    reinserts id at newPosition". *)
Definition move (id newPosition : Z) (l : t) : t :=
  insert id newPosition (remove id l).

(** Modelled from the spec: "toArray() - produces the sequence of ids
    in current order". *)
Definition toArray (l : t) : list Z := l.

(** Modelled from the spec: "fromArray(ids) - builds a sequence whose
    order is exactly the given array; no deduplication performed". *)
Definition fromArray (ids : list Z) : t := ids.

End T1DLinkedList.

(** ** External collaborators *)

(** Modelled from the spec: the store [$localtmp$] of "./store" and the
    class [TWindowActions] of "./taction" are not among the sources.  The
    store is a key-value store with [getOne], [set] and [unset]; of
    [TWindowActions] only the calls [new TWindowActions(id).titlePreface(text)]
    are recorded, latest first. *)
Record Env : Type := mkEnv {
  localtmp : gmap jsstring jsstring;
  titlePreface_calls : list (Z * jsstring)
}.

Definition localtmp_getOne (key : jsstring) (e : Env) : option jsstring :=
  localtmp e !! key.

Definition localtmp_set (key value : jsstring) (e : Env) : Env :=
  mkEnv (<[key := value]> (localtmp e)) (titlePreface_calls e).

Definition localtmp_unset (key : jsstring) (e : Env) : Env :=
  mkEnv (delete key (localtmp e)) (titlePreface_calls e).

Definition titlePreface (windowId : Z) (text : jsstring) (e : Env) : Env :=
  mkEnv (localtmp e) ((windowId, text) :: titlePreface_calls e).

(** The title preface a window was last given, if any. *)
Definition lastTitlePreface (windowId : Z) (e : Env) : option jsstring :=
  snd <$> List.find (fun c => bool_decide (fst c = windowId)) (titlePreface_calls e).

(** Modelled from the spec: [t_in] comes from "Polyfill", which is not
    among the sources; [hasWindow] is described as a "membership test
    against the window-order/tab-order record set". *)
Definition t_in {V : Type} (obj : gmap Z V) (key : Z) : bool :=
  bool_decide (is_Some (obj !! key)).

(** The keys a [for (let k in obj)] loop visits: the own keys of [obj],
    each once, found when the loop starts; integer keys such as window
    ids come in ascending order. *)
Definition for_in_keys {V : Type} (obj : gmap Z V) : list Z :=
  merge_sort Z.le (fst <$> map_to_list obj).

(** One turn of the loop
    [for (let k in obj) { if (obj.hasOwnProperty(k)) { target[k] = f(obj[k]); } }]. *)
Definition copy_turn {A B : Type} (f : A -> B) (obj : gmap Z A)
    (target : gmap Z B) (k : Z) : gmap Z B :=
  match obj !! k with
  | Some v => <[k := f v]> target
  | None => target
  end.

(** That loop, filling [target]. *)
Definition for_in_copy {A B : Type} (f : A -> B) (obj : gmap Z A)
    (target : gmap Z B) : gmap Z B :=
  fold_left (copy_turn f obj) (for_in_keys obj) target.

(** A browser tab, as far as the tracker reads it. *)
Module Tab.
Record t : Type := mk { id : Z; index : Z; active : bool }.
End Tab.

(** ** The tracker *)

Record TRelativeOrder : Type := mkTRelativeOrder {
  _worder : T1DLinkedList.t;
  _order : gmap Z T1DLinkedList.t;     (* { windowId: T1DLinkedList } *)
  _active : gmap Z Z;                  (* { windowId: tabId } *)
  _focusedWindow : Z;
  _naming : gmap Z (option jsstring)   (* { windowId: name }, a name may be undefined *)
}.

Definition constructor : TRelativeOrder :=
  mkTRelativeOrder T1DLinkedList.new ∅ ∅ (-1) ∅.

Definition set_worder (v : T1DLinkedList.t) (this : TRelativeOrder) : TRelativeOrder :=
  mkTRelativeOrder v (_order this) (_active this) (_focusedWindow this) (_naming this).
Definition set_order (v : gmap Z T1DLinkedList.t) (this : TRelativeOrder) : TRelativeOrder :=
  mkTRelativeOrder (_worder this) v (_active this) (_focusedWindow this) (_naming this).
Definition set_active (v : gmap Z Z) (this : TRelativeOrder) : TRelativeOrder :=
  mkTRelativeOrder (_worder this) (_order this) v (_focusedWindow this) (_naming this).
Definition set_naming (v : gmap Z (option jsstring)) (this : TRelativeOrder) : TRelativeOrder :=
  mkTRelativeOrder (_worder this) (_order this) (_active this) (_focusedWindow this) v.

Definition setFocusedWindow (windowId : Z) (this : TRelativeOrder) : TRelativeOrder :=
  mkTRelativeOrder (_worder this) (_order this) (_active this) windowId (_naming this).

Definition getFocusedWindow (this : TRelativeOrder) : Z := _focusedWindow this.

(** The key of a window's name in the store: [`window${windowId}`]. *)
Definition nameKey (windowId : Z) : jsstring :=
  lit "window" ++ Number_toString windowId.

Definition setName (windowId : Z) (name : jsstring)
    (this : TRelativeOrder) (e : Env) : TRelativeOrder * Env :=
  if decide (trim name = lit "") then
    let e1 := localtmp_unset (nameKey windowId) e in
    let e2 := titlePreface windowId (lit "") e1 in
    (set_naming (<[windowId := None]> (_naming this)) this, e2)
  else
    let e1 := localtmp_set (nameKey windowId) name e in
    let e2 := titlePreface windowId (lit "[" ++ name ++ lit "] ") e1 in
    (set_naming (<[windowId := Some name]> (_naming this)) this, e2).

(** [this._naming[windowId]]: [undefined] for a missing record as well as
    for a record that holds [undefined]. *)
Definition getName (windowId : Z) (this : TRelativeOrder) : option jsstring :=
  mjoin (_naming this !! windowId).

Definition setActiveTab (parentWindowId tabId : Z) (this : TRelativeOrder) : TRelativeOrder :=
  set_active (<[parentWindowId := tabId]> (_active this)) this.

Definition getActiveTab (parentWindowId : Z) (this : TRelativeOrder) : option Z :=
  _active this !! parentWindowId.

Definition hasWindow (windowId : Z) (this : TRelativeOrder) : bool :=
  t_in (_order this) windowId.

Definition registerWindow (windowId : Z) (this : TRelativeOrder) : TRelativeOrder :=
  let this := set_order (<[windowId := T1DLinkedList.new]> (_order this)) this in
  let this := set_active (<[windowId := -1]> (_active this)) this in
  let this := set_naming (<[windowId := None]> (_naming this)) this in
  set_worder (T1DLinkedList.append windowId (_worder this)) this.

Definition unregisterWindow (windowId : Z) (this : TRelativeOrder) : TRelativeOrder :=
  let this := set_order (delete windowId (_order this)) this in
  let this := set_active (delete windowId (_active this)) this in
  let this := set_naming (delete windowId (_naming this)) this in
  set_worder (T1DLinkedList.remove windowId (_worder this)) this.

(** [this._order[windowId].m(...)]: reading a member of [undefined]
    throws a TypeError before anything is changed. *)
Definition with_tabs (windowId : Z) (m : T1DLinkedList.t -> T1DLinkedList.t)
    (this : TRelativeOrder) : completion unit * TRelativeOrder :=
  match _order this !! windowId with
  | None => (Throw TypeError, this)
  | Some l => (Return tt, set_order (<[windowId := m l]> (_order this)) this)
  end.

Definition appendTabToWindow (windowId : Z) (t : Tab.t) (inferActive : bool)
    (this : TRelativeOrder) : completion unit * TRelativeOrder :=
  match with_tabs windowId (T1DLinkedList.insert (Tab.id t) (Tab.index t)) this with
  | (Throw e, this') => (Throw e, this')
  | (Return _, this') =>
      if Tab.active t && inferActive
      then (Return tt, set_active (<[windowId := Tab.id t]> (_active this')) this')
      else (Return tt, this')
  end.

Definition removeTabFromWindow (windowId tabId : Z)
    (this : TRelativeOrder) : completion unit * TRelativeOrder :=
  with_tabs windowId (T1DLinkedList.remove tabId) this.

Definition insertTabIntoWindow (windowId tabId i : Z)
    (this : TRelativeOrder) : completion unit * TRelativeOrder :=
  with_tabs windowId (T1DLinkedList.insert tabId i) this.

Definition moveTabWithinWindow (windowId tabId i : Z)
    (this : TRelativeOrder) : completion unit * TRelativeOrder :=
  with_tabs windowId (T1DLinkedList.move tabId i) this.

(** The loop of [getAllAs2DArray]: [ret] holds the arrays pushed so far. *)
Fixpoint getAllAs2DArray_loop (windowOrder : list Z) (ret : list (list Z))
    (this : TRelativeOrder) : completion (list (list Z)) :=
  match windowOrder with
  | [] => Return ret
  | windowId :: rest =>
      match _order this !! windowId with
      | None => Throw TypeError
      | Some l => getAllAs2DArray_loop rest (ret ++ [T1DLinkedList.toArray l]) this
      end
  end.

Definition getAllAs2DArray (this : TRelativeOrder) : completion (list (list Z)) :=
  getAllAs2DArray_loop (T1DLinkedList.toArray (_worder this)) [] this.

(** The plain structure [toSerializable] returns. *)
Module Root.
Record t : Type := mk {
  worder : list Z;
  order : gmap Z (list Z);
  active : gmap Z Z;
  focusedWindow : Z;
  naming : gmap Z (option jsstring)
}.
End Root.

(** [active] and [naming] are the tracker's own objects, handed out by
    reference; [order] is filled by the [for ... in] loop. *)
Definition toSerializable (this : TRelativeOrder) : Root.t :=
  let worder := T1DLinkedList.toArray (_worder this) in
  let order := for_in_copy T1DLinkedList.toArray (_order this) ∅ in
  let active := _active this in
  let focusedWindow := _focusedWindow this in
  let naming := _naming this in
  Root.mk worder order active focusedWindow naming.

Definition fromSerializable (root : Root.t) : TRelativeOrder :=
  let rel := constructor in
  let rel := set_worder (T1DLinkedList.fromArray (Root.worder root)) rel in
  let rel := set_order (for_in_copy T1DLinkedList.fromArray (Root.order root) (_order rel)) rel in
  let rel := set_active (Root.active root) rel in
  let rel := setFocusedWindow (Root.focusedWindow root) rel in
  set_naming (Root.naming root) rel.

(** ** reloadNamesFromTemporaryStore *)

(** What the loop body does once [getOne] has answered [name]. *)
Definition reload_write (windowId : Z) (name : option jsstring)
    (this : TRelativeOrder) : TRelativeOrder :=
  if truthy name
  then set_naming (<[windowId := name]> (_naming this)) this
  else this.

(** The call run to its end with nothing else scheduled in between.  The
    keys are those the loop found when it started; a key deleted before
    its turn is skipped. *)
Fixpoint reload_loop (keys : list Z) (this : TRelativeOrder) (e : Env) : TRelativeOrder :=
  match keys with
  | [] => this
  | windowId :: rest =>
      if t_in (_naming this) windowId
      then reload_loop rest
             (reload_write windowId (localtmp_getOne (nameKey windowId) e) this) e
      else reload_loop rest this e
  end.

Definition reloadNamesFromTemporaryStore (this : TRelativeOrder) (e : Env) : TRelativeOrder :=
  reload_loop (for_in_keys (_naming this)) this e.

(** The same call as a task of the event loop: it is either suspended at
    the [await] of [getOne(`window${windowId}`)], with the keys still to
    visit, or it has resolved.  Other callbacks run only while it is
    suspended. *)
Inductive ReloadTask : Type :=
| AwaitingGetOne (windowId : Z) (rest : list Z)
| Resolved.

(** From the head of the loop to the next [await]. *)
Fixpoint reload_advance (keys : list Z) (this : TRelativeOrder) : ReloadTask :=
  match keys with
  | [] => Resolved
  | windowId :: rest =>
      if t_in (_naming this) windowId
      then AwaitingGetOne windowId rest
      else reload_advance rest this
  end.

Definition reload_start (this : TRelativeOrder) : ReloadTask :=
  reload_advance (for_in_keys (_naming this)) this.

(** The pending [getOne] answers (with what the store holds then) and the
    task runs on to its next [await]. *)
Definition reload_resume (task : ReloadTask) (this : TRelativeOrder) (e : Env)
    : TRelativeOrder * ReloadTask :=
  match task with
  | Resolved => (this, Resolved)
  | AwaitingGetOne windowId rest =>
      let this' := reload_write windowId (localtmp_getOne (nameKey windowId) e) this in
      (this', reload_advance rest this')
  end.

(** ** Sequences of calls *)

(** The calls that change the tracker. *)
Inductive Call : Type :=
| SetFocusedWindow (windowId : Z)
| ReloadNamesFromTemporaryStore
| SetName (windowId : Z) (name : jsstring)
| SetActiveTab (parentWindowId tabId : Z)
| RegisterWindow (windowId : Z)
| UnregisterWindow (windowId : Z)
| AppendTabToWindow (windowId : Z) (t : Tab.t) (inferActive : bool)
| RemoveTabFromWindow (windowId tabId : Z)
| InsertTabIntoWindow (windowId tabId i : Z)
| MoveTabWithinWindow (windowId tabId i : Z).

(** A tracker and the collaborators it talks to. *)
Definition World : Type := TRelativeOrder * Env.

Definition fresh : World := (constructor, mkEnv ∅ []).

(** How a call ends and the state it leaves.  Only the four calls that
    read [this._order[windowId]] have a statement that can throw. *)
Definition call (c : Call) (σ : World) : completion unit * World :=
  let (this, e) := σ in
  match c with
  | SetFocusedWindow w => (Return tt, (setFocusedWindow w this, e))
  | ReloadNamesFromTemporaryStore => (Return tt, (reloadNamesFromTemporaryStore this e, e))
  | SetName w name => (Return tt, setName w name this e)
  | SetActiveTab w tabId => (Return tt, (setActiveTab w tabId this, e))
  | RegisterWindow w => (Return tt, (registerWindow w this, e))
  | UnregisterWindow w => (Return tt, (unregisterWindow w this, e))
  | AppendTabToWindow w t inferActive =>
      let (r, this') := appendTabToWindow w t inferActive this in (r, (this', e))
  | RemoveTabFromWindow w tabId =>
      let (r, this') := removeTabFromWindow w tabId this in (r, (this', e))
  | InsertTabIntoWindow w tabId i =>
      let (r, this') := insertTabIntoWindow w tabId i this in (r, (this', e))
  | MoveTabWithinWindow w tabId i =>
      let (r, this') := moveTabWithinWindow w tabId i this in (r, (this', e))
  end.

(** The calls of [cs] made in turn; a caller that catches what a call
    throws goes on with the next one. *)
Definition calls (cs : list Call) (σ : World) : World :=
  fold_left (fun σ c => snd (call c σ)) cs σ.

(** Every call of [cs] passes [ok] in the state it is made in. *)
Fixpoint guarded (ok : Call -> TRelativeOrder -> bool) (cs : list Call) (σ : World) : bool :=
  match cs with
  | [] => true
  | c :: cs' => ok c (fst σ) && guarded ok cs' (snd (call c σ))
  end.

(** [registerWindow] is called for windows without a record only. *)
Definition registers_new (c : Call) (this : TRelativeOrder) : bool :=
  match c with
  | RegisterWindow w => negb (hasWindow w this)
  | _ => true
  end.


(** The calls of the round-trip property. *)
Definition building (c : Call) : bool :=
  match c with
  | RegisterWindow _ | AppendTabToWindow _ _ _ | SetName _ _ | SetActiveTab _ _ => true
  | _ => false
  end.

(** What the event loop runs while a reload is in flight: the pending
    [getOne] answers, or another callback makes a call. *)
Inductive Event : Type :=
| Resume
| Callback (c : Call).

Definition step (ev : Event) (st : World * ReloadTask) : World * ReloadTask :=
  let '((this, e), task) := st in
  match ev with
  | Resume => let (this', task') := reload_resume task this e in ((this', e), task')
  | Callback c => (snd (call c (this, e)), task)
  end.

(** [reloadNamesFromTemporaryStore()] is called in [σ]; then the events
    of [evs] happen in turn. *)
Definition reload_interleaved (evs : list Event) (σ : World) : World * ReloadTask :=
  fold_left (fun st ev => step ev st) evs (σ, reload_start (fst σ)).

(** ** gen-manifest.js *)

Module GenManifest.

(** A JSON value as [JSON.parse] returns it; a number is kept as its
    numeral, the script looks at none. *)
Unset Elimination Schemes.
Inductive json : Type :=
| JNull
| JBool (b : bool)
| JNumber (numeral : string)
| JString (s : string)
| JArray (items : list json)
| JObject (props : list (string * json)).
Set Elimination Schemes.

Abbreviation object := (list (string * json)).

(** [obj[key]] *)
Definition prop_get (key : string) (obj : object) : option json :=
  snd <$> List.find (fun p => bool_decide (fst p = key)) obj.

(** [obj[key] = v]: a property the object has keeps its place, a new one
    comes last. *)
Fixpoint prop_set (key : string) (v : json) (obj : object) : object :=
  match obj with
  | [] => [(key, v)]
  | (k, v') :: rest =>
      if decide (k = key) then (key, v) :: rest else (k, v') :: prop_set key v rest
  end.

(** [manifest.permissions.push(x)]: only an array has [push]; on anything
    else, or on nothing, the call throws a TypeError. *)
Definition push_permission (x : string) (manifest : object) : completion object :=
  match prop_get "permissions" manifest with
  | Some (JArray items) =>
      Return (prop_set "permissions" (JArray (items ++ [JString x])) manifest)
  | _ => Throw TypeError
  end.

Definition gecko : json :=
  JObject [("gecko",
            JObject [("id", JString "tabby@whatsyouridea.com");
                     ("strict_min_version", JString "59.0")])].

Definition chrome_csp : json :=
  JString "script-src 'self' 'wasm-unsafe-eval'; object-src 'self'".

(** What a run of the script does: the lines it logs, and the manifest
    and indentation it passes to [JSON.stringify] for [dist/manifest.json],
    unless it throws before. *)
Record run : Type := mkRun {
  console : list string;
  written : completion (object * option Z)
}.

(** [indent]: 4 with exactly four arguments, the last one ["--pretty"]. *)
Definition indent_of (argv : list string) : option Z :=
  if (length argv =? 4)%nat && bool_decide (argv !! 3%nat = Some "--pretty")
  then Some 4 else None.

(** The [switch] on [process.argv[2]]. *)
Definition switch_target (argv : list string) (manifest : object) : completion object :=
  match argv !! 2%nat with
  | Some target =>
      if bool_decide (target = "webext") || bool_decide (target = "firefox") then
        match push_permission "<all_urls>" (prop_set "applications" gecko manifest) with
        | Return manifest' => push_permission "contextualIdentities" manifest'
        | Throw e => Throw e
        end
      else if bool_decide (target = "chrome") then
        Return (prop_set "content_security_policy" chrome_csp manifest)
      else Return manifest
  | None => Return manifest
  end.

(** The script, for the arguments [argv] ([process.argv], the node binary
    and the script path first), the parsed [src/manifest.json] and the
    [EXT_VERSION] of "./ext-info" (not among the sources). *)
Definition main (EXT_VERSION : json) (argv : list string) (manifest : object) : run :=
  let console :=
    if (length argv <? 3)%nat then ["Insufficient number of arguments!"] else [] in
  let indent := indent_of argv in
  mkRun console
    match switch_target argv manifest with
    | Return manifest' => Return (prop_set "version" EXT_VERSION manifest', indent)
    | Throw e => Throw e
    end.

End GenManifest.

(** ** Properties of a tracker state *)

(** How often [windowId] occurs in a sequence. *)
Definition occurrences (windowId : Z) (l : T1DLinkedList.t) : nat :=
  length (filter (fun x => x = windowId) (T1DLinkedList.toArray l)).

(** A window has a tab-order record exactly when it is in the window
    order, and it is there once. *)
Definition lockstep (this : TRelativeOrder) : Prop :=
  forall w : Z,
    (hasWindow w this = true <-> w ∈ T1DLinkedList.toArray (_worder this))
    /\ (w ∈ T1DLinkedList.toArray (_worder this) -> occurrences w (_worder this) = 1%nat).


(** No record of [w] is left. *)
Definition forgotten (w : Z) (this : TRelativeOrder) : Prop :=
  _order this !! w = None /\ _active this !! w = None /\ _naming this !! w = None.

(** Every window of the window order has a tab-order record. *)
Definition covered (σ : World) : Prop :=
  forall w, w ∈ _worder (fst σ) -> is_Some (_order (fst σ) !! w).

(** The tab-order records are those of the windows of the window order,
    none of which is listed twice. *)
Definition in_step (σ : World) : Prop :=
  (forall w, is_Some (_order (fst σ) !! w) <-> w ∈ _worder (fst σ))
  /\ NoDup (_worder (fst σ)).

(** The window the calls of [cs] leave focused, [w0] being focused before. *)
Definition last_focus (cs : list Call) (w0 : Z) : Z :=
  fold_left (fun w c => match c with SetFocusedWindow w' => w' | _ => w end) cs w0.

(** The rows [getAllAs2DArray] pushes: the tab array of each window of
    the window order. *)
Definition rows (this : TRelativeOrder) : list (list Z) :=
  (fun w => T1DLinkedList.toArray (default T1DLinkedList.new (_order this !! w)))
    <$> T1DLinkedList.toArray (_worder this).

(** [c] is a [setName] call. *)
Definition is_setName (c : Call) : bool :=
  match c with SetName _ _ => true | _ => false end.

(** [c] writes a name record for [w]: [registerWindow(w)] or [setName(w, _)]. *)
Definition writes_name_of (w : Z) (c : Call) : bool :=
  match c with
  | RegisterWindow w' | SetName w' _ => bool_decide (w' = w)
  | _ => false
  end.

(** [c] is [setName(w, _)]. *)
Definition renames (w : Z) (c : Call) : bool :=
  match c with
  | SetName w' _ => bool_decide (w' = w)
  | _ => false
  end.

(** The task is suspended at the [await] for window [w]. *)
Definition awaits (w : Z) (task : ReloadTask) : bool :=
  match task with
  | AwaitingGetOne w' _ => bool_decide (w' = w)
  | Resolved => false
  end.

(** The event is a callback that writes a name record for [w]. *)
Definition event_writes_name_of (w : Z) (ev : Event) : bool :=
  match ev with
  | Callback c => writes_name_of w c
  | Resume => false
  end.

(** The name record a reload leaves for a window whose record was [old]
    when the store holds [stored] under the window's key. *)
Definition reloaded_name (old : option (option jsstring)) (stored : option jsstring)
    : option (option jsstring) :=
  match old with
  | None => None
  | Some name => if truthy stored then Some stored else Some name
  end.

(** The three calls that hand their arguments to the sequence as they
    are. *)
Definition direct_tab_calls (w tabId i : Z) : list Call :=
  [RemoveTabFromWindow w tabId; InsertTabIntoWindow w tabId i; MoveTabWithinWindow w tabId i].

(** The events of [evs] happen in turn, the reload being in the state
    [st]. *)
Definition run_events (evs : list Event) (st : World * ReloadTask) : World * ReloadTask :=
  fold_left (fun st ev => step ev st) evs st.

(** The lookups the task may still wait for. *)
Definition pending_lookups (task : ReloadTask) : nat :=
  match task with
  | AwaitingGetOne _ rest => S (length rest)
  | Resolved => 0
  end.

(** How many times the pending lookup answers in [evs]. *)
Fixpoint resumes (evs : list Event) : nat :=
  match evs with
  | [] => 0
  | Resume :: evs' => S (resumes evs')
  | Callback _ :: evs' => resumes evs'
  end.

(** Every registered window has an active-tab record and a name record. *)
Definition registered_have_records (this : TRelativeOrder) : Prop :=
  forall w : Z,
    hasWindow w this = true ->
    is_Some (getActiveTab w this) /\ is_Some (_naming this !! w).

(** * Proofs *)

(** ** The sequence operations *)

Section Sequence.
Import T1DLinkedList.
Implicit Types (l : list Z) (id p : Z).

Lemma clamp_le p l : (clamp p l <= length l)%nat.
Proof. unfold clamp. lia. Qed.

Lemma clamp_in_range p l :
  0 <= p <= Z.of_nat (length l) -> Z.of_nat (clamp p l) = p.
Proof. unfold clamp. lia. Qed.

Lemma insert_lookup id p l : insert id p l !! clamp p l = Some id.
Proof.
  unfold insert. pose proof (clamp_le p l) as Hle.
  rewrite lookup_app_r; rewrite length_take; [|lia].
  replace (clamp p l - clamp p l `min` length l)%nat with 0%nat by lia.
  reflexivity.
Qed.

Lemma insert_others id p l :
  filter (fun x => x <> id) (insert id p l) = filter (fun x => x <> id) l.
Proof.
  unfold insert. rewrite filter_app, filter_cons_False by (intros H; apply H; reflexivity).
  rewrite <- filter_app, take_drop. reflexivity.
Qed.

Lemma insert_elem id p l x : x ∈ insert id p l <-> x = id \/ x ∈ l.
Proof.
  unfold insert. rewrite elem_of_app, elem_of_cons.
  assert (x ∈ l <-> x ∈ take (clamp p l) l \/ x ∈ drop (clamp p l) l) as Hsplit
    by (rewrite <- elem_of_app, take_drop; reflexivity).
  tauto.
Qed.

Lemma remove_absent id l : id ∉ l -> remove id l = l.
Proof.
  induction l as [|x l IH]; simpl; intros Hnot; [reflexivity|].
  rewrite not_elem_of_cons in Hnot. destruct Hnot as [Hne Hnot].
  destruct (decide (x = id)) as [->|_]; [contradiction|].
  f_equal. apply IH, Hnot.
Qed.

Lemma remove_length id l : id ∈ l -> S (length (remove id l)) = length l.
Proof.
  induction l as [|x l IH]; simpl; intros Hin.
  - inversion Hin.
  - destruct (decide (x = id)) as [->|Hne]; [reflexivity|].
    simpl. f_equal. apply IH.
    apply elem_of_cons in Hin. destruct Hin as [->|Hin]; [contradiction|exact Hin].
Qed.

Lemma remove_others id l :
  filter (fun x => x <> id) (remove id l) = filter (fun x => x <> id) l.
Proof.
  induction l as [|x l IH]; simpl; [reflexivity|].
  destruct (decide (x = id)) as [->|Hne].
  - rewrite filter_cons_False by (intros H; apply H; reflexivity). reflexivity.
  - rewrite !filter_cons_True by assumption. f_equal. exact IH.
Qed.

Lemma remove_elem id l x : x ∈ remove id l -> x ∈ l.
Proof.
  induction l as [|y l IH]; simpl; [tauto|].
  destruct (decide (y = id)) as [->|Hne]; rewrite ?elem_of_cons; intuition.
Qed.

Lemma remove_elem_ne id l x : x <> id -> x ∈ l -> x ∈ remove id l.
Proof.
  intros Hx. induction l as [|y l IH]; simpl; [tauto|].
  destruct (decide (y = id)) as [->|Hne]; rewrite ?elem_of_cons; intuition congruence.
Qed.

Lemma remove_NoDup id l : NoDup l -> NoDup (remove id l) /\ id ∉ remove id l.
Proof.
  induction 1 as [|x l Hx Hnd IH]; simpl.
  - split; [constructor|]. apply not_elem_of_nil.
  - destruct (decide (x = id)) as [->|Hne]; [split; assumption|].
    destruct IH as [IH1 IH2]. split.
    + constructor; [|exact IH1]. intros Hin. apply Hx. eapply remove_elem, Hin.
    + rewrite not_elem_of_cons. split; [congruence|exact IH2].
Qed.

Lemma occurrences_absent w l : w ∉ l -> occurrences w l = 0%nat.
Proof.
  unfold occurrences, toArray. induction l as [|x l IH]; intros Hnot; [reflexivity|].
  rewrite not_elem_of_cons in Hnot. destruct Hnot as [Hne Hnot].
  rewrite filter_cons_False by congruence. apply IH, Hnot.
Qed.

Lemma occurrences_NoDup w l : NoDup l -> w ∈ l -> occurrences w l = 1%nat.
Proof.
  unfold occurrences, toArray. induction 1 as [|x l Hx Hnd IH]; intros Hin.
  - inversion Hin.
  - destruct (decide (x = w)) as [->|Hne].
    + rewrite filter_cons_True by reflexivity. simpl. f_equal.
      apply (occurrences_absent w l Hx).
    + rewrite filter_cons_False by assumption. apply IH.
      apply elem_of_cons in Hin. destruct Hin as [->|Hin]; [contradiction|exact Hin].
Qed.

End Sequence.

(** C10: for a sequence [s] that contains [id] and any position [p],
    [s.move(id, p)] is [s.remove(id)] followed by [s.insert(id, p)] under
    the same clamping rule; afterwards [id] sits at the clamped position
    [p'] (which is [p] cut to the range from 0 to the length of [s] minus
    one), and the other ids keep their relative order. *)
Theorem move_is_remove_then_insert (s : T1DLinkedList.t) (id p : Z) :
  id ∈ T1DLinkedList.toArray s ->
  let s' := T1DLinkedList.move id p s in
  let p' := T1DLinkedList.clamp p (T1DLinkedList.remove id s) in
  s' = T1DLinkedList.insert id p (T1DLinkedList.remove id s)
  /\ Z.of_nat p' = Z.max 0 (Z.min p (Z.of_nat (length (T1DLinkedList.toArray s)) - 1))
  /\ T1DLinkedList.toArray s' !! p' = Some id
  /\ filter (fun x => x <> id) (T1DLinkedList.toArray s')
     = filter (fun x => x <> id) (T1DLinkedList.toArray s).
Proof.
  intros Hin s' p'. subst s' p'. unfold T1DLinkedList.move, T1DLinkedList.toArray in *.
  split; [reflexivity|]. split; [|split].
  - pose proof (remove_length id s Hin) as Hlen. unfold T1DLinkedList.clamp. lia.
  - apply insert_lookup.
  - rewrite insert_others. apply remove_others.
Qed.

Lemma move_is_remove_then_insert_witness :
  10 ∈ T1DLinkedList.toArray [10; 11]
  /\ T1DLinkedList.toArray (T1DLinkedList.move 10 1 [10; 11]) !! 1%nat = Some 10
  /\ T1DLinkedList.move 10 5 [10; 11; 12] = [11; 12; 10].
Proof.
  assert (10 ∈ T1DLinkedList.toArray [10; 11]) as H2 by apply list_elem_of_here.
  assert (10 ∈ T1DLinkedList.toArray [10; 11; 12]) as H3 by apply list_elem_of_here.
  split; [exact H2|]. split.
  - exact (proj1 (proj2 (proj2 (move_is_remove_then_insert [10; 11] 10 1 H2)))).
  - exact (proj1 (move_is_remove_then_insert [10; 11; 12] 10 5 H3)).
Defined.

(** ** Single calls *)

Lemma hasWindow_true w this : hasWindow w this = true <-> is_Some (_order this !! w).
Proof. unfold hasWindow, t_in. apply bool_decide_eq_true. Qed.

Lemma hasWindow_false w this : hasWindow w this = false <-> _order this !! w = None.
Proof.
  unfold hasWindow, t_in. rewrite bool_decide_eq_false, eq_None_not_Some. reflexivity.
Qed.

Lemma with_tabs_registered w m this l :
  _order this !! w = Some l ->
  with_tabs w m this = (Return tt, set_order (<[w := m l]> (_order this)) this).
Proof. intros H. unfold with_tabs. rewrite H. reflexivity. Qed.

Lemma with_tabs_unregistered w m this :
  _order this !! w = None -> with_tabs w m this = (Throw TypeError, this).
Proof. intros H. unfold with_tabs. rewrite H. reflexivity. Qed.

Lemma appendTabToWindow_registered w t inferActive this l :
  _order this !! w = Some l ->
  appendTabToWindow w t inferActive this
  = (Return tt,
     let this' :=
       set_order (<[w := T1DLinkedList.insert (Tab.id t) (Tab.index t) l]> (_order this)) this in
     if Tab.active t && inferActive
     then set_active (<[w := Tab.id t]> (_active this')) this'
     else this').
Proof.
  intros H. unfold appendTabToWindow. rewrite (with_tabs_registered _ _ _ _ H).
  destruct (Tab.active t && inferActive); reflexivity.
Qed.

(** C2: the scenario of the two appended tabs, and in general: for a
    registered window, [appendTabToWindow(windowId, t, inferActive)]
    returns, puts [t.id] at position [t.index] of the window's tab
    sequence (the other tabs keep their order, other windows are not
    touched), and records [t.id] as the window's active tab when
    [t.active] and [inferActive] both hold, leaving the active-tab
    records as they are otherwise. *)
Theorem appendTabToWindow_inserts_and_marks :
  (let this :=
     fst (calls [RegisterWindow 1;
                 AppendTabToWindow 1 (Tab.mk 10 0 true) true;
                 AppendTabToWindow 1 (Tab.mk 11 1 false) true] fresh) in
   getAllAs2DArray this = Return [[10; 11]] /\ getActiveTab 1 this = Some 10)
  /\
  (forall (this : TRelativeOrder) (windowId : Z) (t : Tab.t) (inferActive : bool)
          (l : T1DLinkedList.t),
     _order this !! windowId = Some l ->
     let r := appendTabToWindow windowId t inferActive this in
     let l' := T1DLinkedList.insert (Tab.id t) (Tab.index t) l in
     fst r = Return tt
     /\ _order (snd r) !! windowId = Some l'
     /\ (0 <= Tab.index t <= Z.of_nat (length (T1DLinkedList.toArray l)) ->
         T1DLinkedList.toArray l' !! Z.to_nat (Tab.index t) = Some (Tab.id t))
     /\ filter (fun x => x <> Tab.id t) (T1DLinkedList.toArray l')
        = filter (fun x => x <> Tab.id t) (T1DLinkedList.toArray l)
     /\ (forall w, w <> windowId -> _order (snd r) !! w = _order this !! w)
     /\ (if Tab.active t && inferActive
         then _active (snd r) = <[windowId := Tab.id t]> (_active this)
              /\ getActiveTab windowId (snd r) = Some (Tab.id t)
         else _active (snd r) = _active this)).
Proof.
  split; [vm_compute; split; reflexivity|].
  intros this windowId t inferActive l Hl r l'. subst r l'.
  rewrite (appendTabToWindow_registered _ _ _ _ _ Hl).
  unfold T1DLinkedList.toArray, getActiveTab.
  split; [reflexivity|].
  split; [destruct (Tab.active t && inferActive); simpl; apply lookup_insert_eq|].
  split.
  { intros Hrange. rewrite <- (insert_lookup (Tab.id t) (Tab.index t) l). f_equal.
    apply Nat2Z.inj. rewrite clamp_in_range by exact Hrange. lia. }
  split; [apply insert_others|].
  split.
  { intros w Hw. destruct (Tab.active t && inferActive); simpl;
      apply lookup_insert_ne; congruence. }
  destruct (Tab.active t && inferActive); simpl; [|reflexivity].
  split; [reflexivity|apply lookup_insert_eq].
Qed.

Lemma appendTabToWindow_inserts_and_marks_witness :
  _order (registerWindow 1 constructor) !! 1 = Some []
  /\ _order (snd (appendTabToWindow 1 (Tab.mk 10 0 true) true (registerWindow 1 constructor))) !! 1
     = Some [10].
Proof.
  assert (_order (registerWindow 1 constructor) !! 1 = Some []) as H by reflexivity.
  split; [exact H|].
  exact (proj1 (proj2 (proj2 appendTabToWindow_inserts_and_marks
                         (registerWindow 1 constructor) 1 (Tab.mk 10 0 true) true [] H))).
Defined.

(** C5: [setName(w, name)] for a [name] that trims to the empty string
    leaves [getName(w)] undefined, unsets the store key ["window<w>"] and
    sets the title preface of [w] to the empty string; for any other
    [name] it makes [getName(w)] the untrimmed [name], stores [name]
    under ["window<w>"] and sets the title preface to ["[<name>] "]. *)
Theorem setName_clears_or_stores (w : Z) (name : jsstring) (this : TRelativeOrder) (e : Env) :
  let this' := fst (setName w name this e) in
  let e' := snd (setName w name this e) in
  nameKey w = lit "window" ++ Number_toString w
  /\ match trim name with
     | [] =>
         getName w this' = None
         /\ localtmp_getOne (nameKey w) e' = None
         /\ titlePreface_calls e' = (w, lit "") :: titlePreface_calls e
         /\ lastTitlePreface w e' = Some (lit "")
     | _ :: _ =>
         getName w this' = Some name
         /\ localtmp_getOne (nameKey w) e' = Some name
         /\ titlePreface_calls e' = (w, lit "[" ++ name ++ lit "] ") :: titlePreface_calls e
         /\ lastTitlePreface w e' = Some (lit "[" ++ name ++ lit "] ")
     end.
Proof.
  intros this' e'. subst this' e'. split; [reflexivity|].
  unfold setName, getName, localtmp_getOne, lastTitlePreface.
  destruct (trim name) as [|c rest] eqn:Htrim.
  - rewrite decide_True by reflexivity. simpl.
    rewrite lookup_insert_eq, lookup_delete_eq, bool_decide_eq_true_2 by reflexivity.
    repeat split.
  - rewrite decide_False by discriminate. simpl.
    rewrite !lookup_insert_eq, bool_decide_eq_true_2 by reflexivity.
    repeat split.
Qed.

(** The two scenarios of the naming property. *)
Example setName_Work :
  let σ := setName 1 (lit "Work") constructor (mkEnv ∅ []) in
  getName 1 (fst σ) = Some (lit "Work")
  /\ titlePreface_calls (snd σ) = [(1, lit "[Work] ")].
Proof. vm_compute. split; reflexivity. Qed.

Example setName_blank :
  let σ := setName 1 (lit "  ") (fst (setName 1 (lit "Work") constructor (mkEnv ∅ [])))
                   (snd (setName 1 (lit "Work") constructor (mkEnv ∅ []))) in
  getName 1 (fst σ) = None
  /\ head (titlePreface_calls (snd σ)) = Some (1, lit "").
Proof. vm_compute. split; reflexivity. Qed.

(** C6: [registerWindow(w)] leaves [w] with an empty tab sequence, the
    active tab -1 and an undefined name, and puts [w] at the end of the
    window order, whatever was recorded for [w] before. *)
Theorem registerWindow_resets (w : Z) (this : TRelativeOrder) :
  let this' := registerWindow w this in
  hasWindow w this' = true
  /\ T1DLinkedList.toArray <$> _order this' !! w = Some []
  /\ getActiveTab w this' = Some (-1)
  /\ getName w this' = None
  /\ T1DLinkedList.toArray (_worder this') = T1DLinkedList.toArray (_worder this) ++ [w].
Proof.
  intros this'. subst this'.
  unfold registerWindow, getActiveTab, getName. simpl.
  rewrite hasWindow_true. simpl. rewrite !lookup_insert_eq.
  repeat split. eexists; reflexivity.
Qed.

(** A window with tabs, an active tab and a name loses them when it is
    registered again. *)
Example registerWindow_discards :
  let this := fst (calls [RegisterWindow 1; AppendTabToWindow 1 (Tab.mk 10 0 true) true;
                          SetName 1 (lit "Work"); RegisterWindow 1] fresh) in
  _order this !! 1 = Some [] /\ getActiveTab 1 this = Some (-1) /\ getName 1 this = None.
Proof. vm_compute. repeat split. Qed.

Lemma record_eta (this : TRelativeOrder) :
  mkTRelativeOrder (_worder this) (_order this) (_active this)
                   (_focusedWindow this) (_naming this) = this.
Proof. destruct this; reflexivity. Qed.

(** C7: after [registerWindow(w)] and [unregisterWindow(w)], [hasWindow(w)]
    is false and [getName(w)] and [getActiveTab(w)] are undefined;
    [unregisterWindow(w)] returns without throwing in every state, and in
    a state with no record of [w] it changes nothing. *)
Theorem unregisterWindow_forgets (w : Z) (σ : World) :
  (let this' := unregisterWindow w (registerWindow w (fst σ)) in
   hasWindow w this' = false /\ getName w this' = None /\ getActiveTab w this' = None)
  /\ fst (call (UnregisterWindow w) σ) = Return tt
  /\ (forgotten w (fst σ) -> w ∉ T1DLinkedList.toArray (_worder (fst σ)) ->
      snd (call (UnregisterWindow w) σ) = σ).
Proof.
  destruct σ as [this e]. simpl. split; [|split; [reflexivity|]].
  - rewrite hasWindow_false. unfold getName, getActiveTab. simpl.
    rewrite !lookup_delete_eq. repeat split.
  - intros (Ho & Ha & Hn) Hw. unfold T1DLinkedList.toArray in Hw. f_equal.
    unfold unregisterWindow, set_worder, set_naming, set_active, set_order. simpl.
    rewrite (remove_absent _ _ Hw), !delete_id by assumption.
    apply record_eta.
Qed.

Lemma unregisterWindow_forgets_witness :
  forgotten 5 (fst fresh) /\ (5 ∉ T1DLinkedList.toArray (_worder (fst fresh)))
  /\ snd (call (UnregisterWindow 5) fresh) = fresh.
Proof.
  assert (forgotten 5 (fst fresh)) as H1 by (repeat split).
  assert (5 ∉ T1DLinkedList.toArray (_worder (fst fresh))) as H2 by apply not_elem_of_nil.
  split; [exact H1|]. split; [exact H2|].
  exact (proj2 (proj2 (unregisterWindow_forgets 5 fresh)) H1 H2).
Defined.

(** C8: for a window without a record ([hasWindow(w)] false), each of
    [appendTabToWindow], [removeTabFromWindow], [insertTabIntoWindow] and
    [moveTabWithinWindow] throws a TypeError and leaves the tracker as it
    was. *)
Theorem tab_calls_throw_on_unknown_window
    (w : Z) (this : TRelativeOrder) (t : Tab.t) (inferActive : bool) (tabId i : Z) :
  hasWindow w this = false ->
  appendTabToWindow w t inferActive this = (Throw TypeError, this)
  /\ removeTabFromWindow w tabId this = (Throw TypeError, this)
  /\ insertTabIntoWindow w tabId i this = (Throw TypeError, this)
  /\ moveTabWithinWindow w tabId i this = (Throw TypeError, this).
Proof.
  rewrite hasWindow_false. intros H.
  unfold appendTabToWindow, removeTabFromWindow, insertTabIntoWindow, moveTabWithinWindow.
  rewrite !(with_tabs_unregistered _ _ _ H). repeat split.
Qed.

Lemma tab_calls_throw_on_unknown_window_witness :
  hasWindow 2 (registerWindow 1 constructor) = false
  /\ appendTabToWindow 2 (Tab.mk 10 0 true) true (registerWindow 1 constructor)
     = (Throw TypeError, registerWindow 1 constructor).
Proof.
  assert (hasWindow 2 (registerWindow 1 constructor) = false) as H by reflexivity.
  split; [exact H|].
  exact (proj1 (tab_calls_throw_on_unknown_window 2 (registerWindow 1 constructor)
                  (Tab.mk 10 0 true) true 0 0 H)).
Defined.

(** ** The [for ... in] loops of the serialization *)

Section ForIn.
Context {A B : Type} (f : A -> B) (m : gmap Z A).

Lemma for_in_keys_elem (k : Z) : k ∈ for_in_keys m <-> is_Some (m !! k).
Proof.
  unfold for_in_keys. rewrite merge_sort_Permutation, list_elem_of_fmap. split.
  - intros [[k' v] [-> Hin]]. apply elem_of_map_to_list in Hin. eexists; exact Hin.
  - intros [v Hv]. exists (k, v). split; [reflexivity|]. apply elem_of_map_to_list, Hv.
Qed.

Lemma copy_loop_skipped ks acc i :
  i ∉ ks -> fold_left (copy_turn f m) ks acc !! i = acc !! i.
Proof.
  revert acc. induction ks as [|k ks IH]; intros acc Hi; [reflexivity|].
  rewrite not_elem_of_cons in Hi. destruct Hi as [Hne Hi]. simpl.
  rewrite IH by exact Hi. unfold copy_turn.
  destruct (m !! k); [apply lookup_insert_ne; congruence|reflexivity].
Qed.

Lemma copy_loop_absent ks acc i :
  m !! i = None -> fold_left (copy_turn f m) ks acc !! i = acc !! i.
Proof.
  intros Hm. revert acc. induction ks as [|k ks IH]; intros acc; [reflexivity|].
  simpl. rewrite IH. unfold copy_turn.
  destruct (m !! k) eqn:Hk; [|reflexivity].
  apply lookup_insert_ne. congruence.
Qed.

Lemma copy_loop_visited ks acc i v :
  i ∈ ks -> m !! i = Some v -> fold_left (copy_turn f m) ks acc !! i = Some (f v).
Proof.
  intros Hi Hm. revert acc. induction ks as [|k ks IH]; intros acc; [inversion Hi|].
  simpl. destruct (decide (i ∈ ks)) as [Hin|Hnot]; [apply IH, Hin|].
  apply elem_of_cons in Hi. destruct Hi as [->|Hi]; [|contradiction].
  rewrite copy_loop_skipped by exact Hnot.
  unfold copy_turn. rewrite Hm. apply lookup_insert_eq.
Qed.

Lemma for_in_copy_empty : for_in_copy f m ∅ = f <$> m.
Proof.
  apply map_eq. intros i. rewrite lookup_fmap. unfold for_in_copy.
  destruct (m !! i) as [v|] eqn:Hm; simpl.
  - apply copy_loop_visited; [|exact Hm]. apply for_in_keys_elem. eexists; exact Hm.
  - rewrite copy_loop_absent by exact Hm. apply lookup_empty.
Qed.

End ForIn.

Lemma toSerializable_order this :
  Root.order (toSerializable this) = T1DLinkedList.toArray <$> _order this.
Proof. unfold toSerializable. simpl. apply for_in_copy_empty. Qed.

Lemma fromSerializable_fields root :
  fromSerializable root
  = mkTRelativeOrder (T1DLinkedList.fromArray (Root.worder root))
      (T1DLinkedList.fromArray <$> Root.order root)
      (Root.active root) (Root.focusedWindow root) (Root.naming root).
Proof. unfold fromSerializable. simpl. rewrite for_in_copy_empty. reflexivity. Qed.

Lemma fromSerializable_toSerializable this :
  fromSerializable (toSerializable this) = this.
Proof.
  rewrite fromSerializable_fields, toSerializable_order. unfold toSerializable. simpl.
  rewrite <- map_fmap_compose.
  unfold T1DLinkedList.fromArray, T1DLinkedList.toArray.
  rewrite (map_fmap_ext _ id) by (intros; reflexivity).
  rewrite map_fmap_id. apply record_eta.
Qed.

(** ** What each call leaves alone *)

Lemma with_tabs_frame w m this :
  let this' := snd (with_tabs w m this) in
  _worder this' = _worder this
  /\ _active this' = _active this
  /\ _naming this' = _naming this
  /\ forall w', is_Some (_order this' !! w') <-> is_Some (_order this !! w').
Proof.
  unfold with_tabs. destruct (_order this !! w) as [l|] eqn:Hl; simpl.
  - repeat split; try tauto; destruct (decide (w = w')) as [<-|Hne];
      rewrite ?lookup_insert_eq, ?lookup_insert_ne, ?Hl by assumption; eauto.
  - repeat split; tauto.
Qed.

Lemma appendTabToWindow_frame w t inferActive this :
  let this' := snd (appendTabToWindow w t inferActive this) in
  _worder this' = _worder this
  /\ _naming this' = _naming this
  /\ (forall w', is_Some (_order this' !! w') <-> is_Some (_order this !! w'))
  /\ (forall w', is_Some (_active this' !! w') ->
        is_Some (_active this !! w') \/ is_Some (_order this !! w')).
Proof.
  destruct (_order this !! w) as [l|] eqn:Hl.
  - rewrite (appendTabToWindow_registered _ _ _ _ _ Hl).
    pose proof (with_tabs_frame w (T1DLinkedList.insert (Tab.id t) (Tab.index t)) this)
      as (_ & _ & _ & Hkeys).
    rewrite (with_tabs_registered _ _ _ _ Hl) in Hkeys. simpl in Hkeys.
    destruct (Tab.active t && inferActive); simpl; repeat split;
      try apply Hkeys; try tauto.
    intros w'. destruct (decide (w = w')) as [<-|Hne].
    + right. rewrite Hl. eauto.
    + rewrite lookup_insert_ne by assumption. tauto.
  - unfold appendTabToWindow. rewrite (with_tabs_unregistered _ _ _ Hl). simpl.
    repeat split; tauto.
Qed.

Lemma reload_write_frame w name this :
  is_Some (_naming this !! w) ->
  let this' := reload_write w name this in
  _worder this' = _worder this
  /\ _order this' = _order this
  /\ _active this' = _active this
  /\ forall w', is_Some (_naming this' !! w') <-> is_Some (_naming this !! w').
Proof.
  intros Hw. unfold reload_write. destruct (truthy name); simpl; repeat split; try tauto;
    destruct (decide (w = w')) as [<-|Hne];
    rewrite ?lookup_insert_eq, ?lookup_insert_ne by assumption; eauto.
Qed.

Lemma reload_loop_frame keys this e :
  let this' := reload_loop keys this e in
  _worder this' = _worder this
  /\ _order this' = _order this
  /\ _active this' = _active this
  /\ forall w', is_Some (_naming this' !! w') <-> is_Some (_naming this !! w').
Proof.
  revert this. induction keys as [|w keys IH]; intros this; simpl.
  - repeat split; tauto.
  - unfold t_in. destruct (bool_decide (is_Some (_naming this !! w))) eqn:Hw.
    + apply bool_decide_eq_true in Hw.
      destruct (reload_write_frame w (localtmp_getOne (nameKey w) e) this Hw)
        as (W1 & O1 & A1 & N1).
      destruct (IH (reload_write w (localtmp_getOne (nameKey w) e) this))
        as (W2 & O2 & A2 & N2).
      repeat split; try congruence; rewrite N2, N1; tauto.
    + apply IH.
Qed.

Lemma setName_frame w name this e :
  let this' := fst (setName w name this e) in
  _worder this' = _worder this
  /\ _order this' = _order this
  /\ _active this' = _active this
  /\ forall w', is_Some (_naming this' !! w') <-> w' = w \/ is_Some (_naming this !! w').
Proof.
  unfold setName. destruct (decide (trim name = lit "")); simpl; repeat split;
    try (intros [->|H]); try (destruct (decide (w = w')) as [<-|Hne]);
    rewrite ?lookup_insert_eq, ?lookup_insert_ne by assumption; eauto.
Qed.

(** An invariant kept by every permitted call holds after any permitted
    sequence of calls. *)
Lemma guarded_invariant (ok : Call -> TRelativeOrder -> bool) (P : World -> Prop) :
  (forall c σ, P σ -> ok c (fst σ) = true -> P (snd (call c σ))) ->
  forall cs σ, P σ -> guarded ok cs σ = true -> P (calls cs σ).
Proof.
  intros Hstep cs. induction cs as [|c cs IH]; intros σ HP Hok; [exact HP|].
  simpl in Hok. apply andb_true_iff in Hok. destruct Hok as [Hc Hcs].
  apply (IH (snd (call c σ))); [apply Hstep; assumption|exact Hcs].
Qed.

Lemma guarded_forallb (b : Call -> bool) cs σ :
  forallb b cs = true -> guarded (fun c _ => b c) cs σ = true.
Proof.
  revert σ. induction cs as [|c cs IH]; intros σ H; [reflexivity|].
  simpl in *. apply andb_true_iff in H. destruct H as [Hc Hcs].
  rewrite Hc. apply IH, Hcs.
Qed.

(** ** The round trip through [toSerializable] *)

Lemma building_covered c σ :
  covered σ -> building c = true -> covered (snd (call c σ)).
Proof.
  destruct σ as [this e]. unfold covered. intros Hcov Hb w.
  destruct c; try discriminate Hb; simpl.
  - destruct (setName_frame windowId name this e) as (-> & -> & _). apply Hcov.
  - apply Hcov.
  - unfold T1DLinkedList.append. rewrite elem_of_app, list_elem_of_singleton.
    intros [Hin| ->]; [|rewrite lookup_insert_eq; eauto].
    destruct (decide (windowId = w)) as [<-|Hne];
      rewrite ?lookup_insert_eq, ?lookup_insert_ne by assumption; eauto.
  - destruct (appendTabToWindow_frame windowId t inferActive this) as (HW & _ & HO & _).
    destruct (appendTabToWindow windowId t inferActive this) as [r this']. simpl in *.
    rewrite HW, HO. apply Hcov.
Qed.

Lemma getAllAs2DArray_loop_returns ks ret this :
  (forall w, w ∈ ks -> is_Some (_order this !! w)) ->
  exists a, getAllAs2DArray_loop ks ret this = Return a.
Proof.
  revert ret. induction ks as [|k ks IH]; intros ret Hks; simpl; [eauto|].
  destruct (Hks k) as [l ->]; [apply list_elem_of_here|].
  apply IH. intros w Hw. apply Hks, list_elem_of_further, Hw.
Qed.

(** C1: for a tracker [T] built by any sequence of [registerWindow],
    [appendTabToWindow], [setName] and [setActiveTab] calls,
    [getAllAs2DArray()] returns an array, and the tracker
    [fromSerializable(T.toSerializable())] returns the same array, the same
    [getName(w)] and [getActiveTab(w)] for every registered window [w],
    and the same [getFocusedWindow()]. *)
Theorem serialization_round_trip (cs : list Call) :
  forallb building cs = true ->
  let T := fst (calls cs fresh) in
  let T' := fromSerializable (toSerializable T) in
  (exists a, getAllAs2DArray T = Return a /\ getAllAs2DArray T' = Return a)
  /\ (forall w, hasWindow w T = true ->
        getName w T' = getName w T /\ getActiveTab w T' = getActiveTab w T)
  /\ getFocusedWindow T' = getFocusedWindow T.
Proof.
  intros Hcs T T'. subst T'. rewrite fromSerializable_toSerializable.
  split; [|split; [split|]; reflexivity].
  assert (covered (calls cs fresh)) as Hcov.
  { apply (guarded_invariant (fun c _ => building c)).
    - intros c σ. apply building_covered.
    - intros w Hw. inversion Hw.
    - apply guarded_forallb, Hcs. }
  destruct (getAllAs2DArray_loop_returns (_worder T) [] T Hcov) as [a Ha].
  exists a. split; exact Ha.
Qed.

Lemma serialization_round_trip_witness :
  forallb building [RegisterWindow 1; AppendTabToWindow 1 (Tab.mk 10 0 true) true;
                    SetName 1 (lit "Work"); SetActiveTab 1 10] = true
  /\ getFocusedWindow
       (fromSerializable (toSerializable
          (fst (calls [RegisterWindow 1; AppendTabToWindow 1 (Tab.mk 10 0 true) true;
                       SetName 1 (lit "Work"); SetActiveTab 1 10] fresh))))
     = getFocusedWindow
         (fst (calls [RegisterWindow 1; AppendTabToWindow 1 (Tab.mk 10 0 true) true;
                      SetName 1 (lit "Work"); SetActiveTab 1 10] fresh)).
Proof.
  assert (forallb building [RegisterWindow 1; AppendTabToWindow 1 (Tab.mk 10 0 true) true;
                            SetName 1 (lit "Work"); SetActiveTab 1 10] = true) as H
    by reflexivity.
  split; [exact H|].
  exact (proj2 (proj2 (serialization_round_trip _ H))).
Defined.

(** ** The window order and the tab-order records *)

Lemma registers_new_in_step c σ :
  in_step σ -> registers_new c (fst σ) = true -> in_step (snd (call c σ)).
Proof.
  destruct σ as [this e]. unfold in_step. intros [Hkeys Hnd] Hok.
  destruct c; simpl in *.
  - split; assumption.
  - destruct (reload_loop_frame (for_in_keys (_naming this)) this e) as (HW & HO & _).
    unfold reloadNamesFromTemporaryStore. rewrite HW, HO. split; assumption.
  - destruct (setName_frame windowId name this e) as (-> & -> & _). split; assumption.
  - split; assumption.
  - apply negb_true_iff, hasWindow_false in Hok.
    assert (windowId ∉ _worder this) as Hnew.
    { intros Hin. apply Hkeys in Hin. rewrite Hok in Hin. destruct Hin; discriminate. }
    unfold T1DLinkedList.append. split.
    + intros w. rewrite elem_of_app, list_elem_of_singleton, <- Hkeys.
      destruct (decide (windowId = w)) as [<-|Hne].
      * rewrite lookup_insert_eq. split; eauto.
      * rewrite lookup_insert_ne by assumption. split; [tauto|]. intros [H|H]; congruence.
    + apply NoDup_app. split; [exact Hnd|]. split; [|apply NoDup_singleton].
      intros x Hx Hx'. apply list_elem_of_singleton in Hx'. congruence.
  - destruct (remove_NoDup windowId _ Hnd) as [Hnd' Hgone]. split; [|exact Hnd'].
    intros w. destruct (decide (windowId = w)) as [<-|Hne].
    + rewrite lookup_delete_eq. split; [intros []; discriminate|contradiction].
    + rewrite lookup_delete_ne by assumption. rewrite Hkeys. split.
      * apply remove_elem_ne. congruence.
      * apply remove_elem.
  - destruct (appendTabToWindow_frame windowId t inferActive this) as (HW & _ & HO & _).
    destruct (appendTabToWindow windowId t inferActive this) as [r this']. simpl in *.
    rewrite HW. split; [|exact Hnd]. intros w. rewrite HO. apply Hkeys.
  - destruct (with_tabs_frame windowId (T1DLinkedList.remove tabId) this) as (HW & _ & _ & HO).
    unfold removeTabFromWindow.
    destruct (with_tabs windowId (T1DLinkedList.remove tabId) this) as [r this']. simpl in *.
    rewrite HW. split; [|exact Hnd]. intros w. rewrite HO. apply Hkeys.
  - destruct (with_tabs_frame windowId (T1DLinkedList.insert tabId i) this) as (HW & _ & _ & HO).
    unfold insertTabIntoWindow.
    destruct (with_tabs windowId (T1DLinkedList.insert tabId i) this) as [r this']. simpl in *.
    rewrite HW. split; [|exact Hnd]. intros w. rewrite HO. apply Hkeys.
  - destruct (with_tabs_frame windowId (T1DLinkedList.move tabId i) this) as (HW & _ & _ & HO).
    unfold moveTabWithinWindow.
    destruct (with_tabs windowId (T1DLinkedList.move tabId i) this) as [r this']. simpl in *.
    rewrite HW. split; [|exact Hnd]. intros w. rewrite HO. apply Hkeys.
Qed.

Lemma in_step_lockstep σ : in_step σ -> lockstep (fst σ).
Proof.
  intros [Hkeys Hnd] w. unfold T1DLinkedList.toArray. split.
  - rewrite hasWindow_true. apply Hkeys.
  - apply occurrences_NoDup, Hnd.
Qed.

(** Where [registerWindow] is only called for windows that have no record
    at that moment, every state reached from a fresh tracker by public
    calls has a tab-order record for exactly the windows of the window
    order, each listed exactly once. *)
Theorem window_order_in_lockstep (cs : list Call) :
  guarded registers_new cs fresh = true ->
  lockstep (fst (calls cs fresh)).
Proof.
  intros Hcs. apply in_step_lockstep.
  apply (guarded_invariant registers_new in_step registers_new_in_step); [|exact Hcs].
  split; [|apply NoDup_nil_2].
  intros w. simpl. rewrite lookup_empty. split; [intros []; discriminate|].
  intros Hin. inversion Hin.
Qed.

Lemma window_order_in_lockstep_witness :
  guarded registers_new
    [RegisterWindow 1; RegisterWindow 2; UnregisterWindow 1; RegisterWindow 1;
     UnregisterWindow 7] fresh = true
  /\ lockstep (fst (calls [RegisterWindow 1; RegisterWindow 2; UnregisterWindow 1;
                            RegisterWindow 1; UnregisterWindow 7] fresh)).
Proof.
  assert (guarded registers_new
            [RegisterWindow 1; RegisterWindow 2; UnregisterWindow 1; RegisterWindow 1;
             UnregisterWindow 7] fresh = true) as H by (vm_compute; reflexivity).
  split; [exact H|]. exact (window_order_in_lockstep _ H).
Defined.

(** ** Active-tab and name records *)







(** ** A reload with an [unregisterWindow] in between *)

(** Run without interruption, the task is the loop of
    [reloadNamesFromTemporaryStore]. *)
Lemma reload_resume_is_loop keys this e :
  match reload_advance keys this with
  | Resolved => reload_loop keys this e = this
  | AwaitingGetOne w rest =>
      reload_loop keys this e
      = reload_loop rest (fst (reload_resume (AwaitingGetOne w rest) this e)) e
  end.
Proof.
  induction keys as [|k keys IH]; simpl; [reflexivity|].
  destruct (t_in (_naming this) k); [reflexivity|exact IH].
Qed.

(** C9 on the code: window 1 is registered and named "Work".  The reload
    starts and is suspended at the [await] for window 1;
    [unregisterWindow(1)] runs and deletes every record of the window;
    then [getOne] answers and the task writes the name record of window 1
    back, although the window is no longer registered. *)
Theorem reload_writes_name_of_unregistered_window :
  let σ := calls [RegisterWindow 1; SetName 1 (lit "Work")] fresh in
  let suspended := reload_interleaved [] σ in
  let unregistered := reload_interleaved [Callback (UnregisterWindow 1)] σ in
  let resumed := reload_interleaved [Callback (UnregisterWindow 1); Resume] σ in
  snd suspended = AwaitingGetOne 1 []
  /\ forgotten 1 (fst (fst unregistered))
  /\ snd unregistered = AwaitingGetOne 1 []
  /\ snd resumed = Resolved
  /\ hasWindow 1 (fst (fst resumed)) = false
  /\ _naming (fst (fst resumed)) !! 1 = Some (Some (lit "Work"))
  /\ getName 1 (fst (fst resumed)) = Some (lit "Work").
Proof. vm_compute. repeat split. Qed.

(** * Further properties of the tracker *)

(** ** The focused window *)

Lemma reload_loop_focus keys this e :
  _focusedWindow (reload_loop keys this e) = _focusedWindow this.
Proof.
  revert this. induction keys as [|w keys IH]; intros this; simpl; [reflexivity|].
  destruct (t_in (_naming this) w); rewrite IH; [|reflexivity].
  unfold reload_write. destruct (truthy _); reflexivity.
Qed.

Lemma call_focus c σ :
  getFocusedWindow (fst (snd (call c σ)))
  = match c with SetFocusedWindow w => w | _ => getFocusedWindow (fst σ) end.
Proof.
  destruct σ as [this e]. unfold getFocusedWindow.
  destruct c; simpl; try reflexivity.
  - apply reload_loop_focus.
  - unfold setName. destruct (decide _); reflexivity.
  - unfold appendTabToWindow, with_tabs.
    destruct (_order this !! windowId); simpl; [|reflexivity].
    destruct (Tab.active t && inferActive); reflexivity.
  - unfold removeTabFromWindow, with_tabs. destruct (_order this !! windowId); reflexivity.
  - unfold insertTabIntoWindow, with_tabs. destruct (_order this !! windowId); reflexivity.
  - unfold moveTabWithinWindow, with_tabs. destruct (_order this !! windowId); reflexivity.
Qed.

(** X1: after any sequence of calls, [getFocusedWindow()] is the argument
    of the last [setFocusedWindow] call of the sequence, and what it was
    before when there is none: it is -1 on a new tracker, and no other
    call changes it, not even [unregisterWindow] of the focused window. *)
Theorem focused_window_is_last_set (cs : list Call) (σ : World) :
  getFocusedWindow (fst (calls cs σ)) = last_focus cs (getFocusedWindow (fst σ))
  /\ getFocusedWindow (fst fresh) = -1
  /\ forall w, getFocusedWindow (fst (calls [SetFocusedWindow w; UnregisterWindow w] σ)) = w.
Proof.
  split; [|split; [reflexivity|]].
  - revert σ. induction cs as [|c cs IH]; intros σ; [reflexivity|].
    simpl. rewrite IH, call_focus. unfold last_focus. destruct c; reflexivity.
  - intros w. destruct σ as [this e]. reflexivity.
Qed.

(** ** getAllAs2DArray *)

Lemma getAllAs2DArray_loop_rows ks ret this :
  (forall w, w ∈ ks -> is_Some (_order this !! w)) ->
  getAllAs2DArray_loop ks ret this
  = Return (ret ++ ((fun w => T1DLinkedList.toArray (default T1DLinkedList.new (_order this !! w)))
                     <$> ks)).
Proof.
  revert ret. induction ks as [|k ks IH]; intros ret Hks; simpl.
  - rewrite app_nil_r. reflexivity.
  - destruct (Hks k) as [l Hl]; [apply list_elem_of_here|]. rewrite Hl. simpl.
    rewrite IH by (intros w Hw; apply Hks, list_elem_of_further, Hw).
    rewrite <- app_assoc. reflexivity.
Qed.

Lemma getAllAs2DArray_loop_throws ks ret this w :
  w ∈ ks -> _order this !! w = None -> getAllAs2DArray_loop ks ret this = Throw TypeError.
Proof.
  intros Hin Hnone. revert ret. induction ks as [|k ks IH]; intros ret; [inversion Hin|].
  simpl. destruct (decide (k = w)) as [->|Hne]; [rewrite Hnone; reflexivity|].
  destruct (_order this !! k); [|reflexivity]. apply IH.
  apply elem_of_cons in Hin. destruct Hin as [->|Hin]; [contradiction|exact Hin].
Qed.

(** X2: [getAllAs2DArray()] returns, for the windows of the window order
    in turn, the tab array of each, when every window of the window order
    has a tab-order record; it throws a TypeError as soon as one window
    of the window order has none. *)
Theorem getAllAs2DArray_rows_or_throws (this : TRelativeOrder) :
  ((forall w, w ∈ T1DLinkedList.toArray (_worder this) -> hasWindow w this = true) ->
   getAllAs2DArray this = Return (rows this))
  /\ (forall w, w ∈ T1DLinkedList.toArray (_worder this) -> hasWindow w this = false ->
      getAllAs2DArray this = Throw TypeError).
Proof.
  unfold getAllAs2DArray, rows, T1DLinkedList.toArray. split.
  - intros Hall. apply (getAllAs2DArray_loop_rows (_worder this) []).
    intros w Hw. apply hasWindow_true, Hall, Hw.
  - intros w Hw Hno. apply hasWindow_false in Hno.
    apply (getAllAs2DArray_loop_throws _ _ _ w Hw Hno).
Qed.

Lemma getAllAs2DArray_rows_or_throws_witness :
  (7 ∈ T1DLinkedList.toArray (_worder (fromSerializable (Root.mk [7] ∅ ∅ (-1) ∅))))
  /\ hasWindow 7 (fromSerializable (Root.mk [7] ∅ ∅ (-1) ∅)) = false
  /\ getAllAs2DArray (fromSerializable (Root.mk [7] ∅ ∅ (-1) ∅)) = Throw TypeError.
Proof.
  assert (7 ∈ T1DLinkedList.toArray (_worder (fromSerializable (Root.mk [7] ∅ ∅ (-1) ∅))))
    as H1 by apply list_elem_of_here.
  assert (hasWindow 7 (fromSerializable (Root.mk [7] ∅ ∅ (-1) ∅)) = false) as H2
    by (vm_compute; reflexivity).
  split; [exact H1|]. split; [exact H2|].
  exact (proj2 (getAllAs2DArray_rows_or_throws _) 7 H1 H2).
Defined.

Lemma reachable_in_step (cs : list Call) :
  guarded registers_new cs fresh = true -> in_step (calls cs fresh).
Proof.
  apply (guarded_invariant registers_new in_step registers_new_in_step).
  split; [|apply NoDup_nil_2].
  intros w. simpl. rewrite lookup_empty. split; [intros []; discriminate|].
  intros Hin. inversion Hin.
Qed.

(** X3: in every state reached from a new tracker by calls that register
    only windows without a record, [getAllAs2DArray()] returns: one row
    for each window of the window order, and the tab array of every
    registered window is among the rows. *)
Theorem getAllAs2DArray_returns_without_reregistration (cs : list Call) :
  guarded registers_new cs fresh = true ->
  let this := fst (calls cs fresh) in
  getAllAs2DArray this = Return (rows this)
  /\ length (rows this) = length (T1DLinkedList.toArray (_worder this))
  /\ forall w l, _order this !! w = Some l -> T1DLinkedList.toArray l ∈ rows this.
Proof.
  intros Hcs this.
  pose proof (reachable_in_step cs Hcs) as [Hkeys Hnd]. fold this in Hkeys, Hnd.
  split; [|split].
  - apply (getAllAs2DArray_loop_rows (_worder this) []). intros w Hw. apply Hkeys, Hw.
  - unfold rows. apply length_fmap.
  - intros w l Hl. unfold rows. apply list_elem_of_fmap. exists w.
    rewrite Hl. split; [reflexivity|]. apply Hkeys. eauto.
Qed.

Lemma getAllAs2DArray_returns_without_reregistration_witness :
  guarded registers_new
    [RegisterWindow 1; RegisterWindow 2; AppendTabToWindow 2 (Tab.mk 10 0 true) true;
     UnregisterWindow 1; RegisterWindow 1] fresh = true
  /\ getAllAs2DArray
       (fst (calls [RegisterWindow 1; RegisterWindow 2;
                    AppendTabToWindow 2 (Tab.mk 10 0 true) true;
                    UnregisterWindow 1; RegisterWindow 1] fresh))
     = Return [[10]; []].
Proof.
  assert (guarded registers_new
            [RegisterWindow 1; RegisterWindow 2; AppendTabToWindow 2 (Tab.mk 10 0 true) true;
             UnregisterWindow 1; RegisterWindow 1] fresh = true) as H
    by (vm_compute; reflexivity).
  split; [exact H|].
  exact (proj1 (getAllAs2DArray_returns_without_reregistration _ H)).
Defined.

(** ** Names and the store *)

Lemma reloaded_name_is_Some old stored :
  is_Some (reloaded_name old stored) <-> is_Some old.
Proof.
  unfold reloaded_name. destruct old as [name|]; [|reflexivity].
  destruct (truthy stored); split; eauto.
Qed.

Lemma reloaded_name_again old stored :
  reloaded_name (reloaded_name old stored) stored = reloaded_name old stored.
Proof.
  unfold reloaded_name. destruct old as [name|]; [|reflexivity].
  simpl. destruct (truthy stored); reflexivity.
Qed.

Lemma reload_write_naming k this e w :
  is_Some (_naming this !! k) ->
  _naming (reload_write k (localtmp_getOne (nameKey k) e) this) !! w
  = if decide (k = w)
    then reloaded_name (_naming this !! w) (localtmp_getOne (nameKey w) e)
    else _naming this !! w.
Proof.
  intros [old Hold]. unfold reload_write, reloaded_name.
  destruct (decide (k = w)) as [<-|Hne].
  - rewrite Hold. destruct (truthy _); simpl; [apply lookup_insert_eq|exact Hold].
  - destruct (truthy _); simpl; [apply lookup_insert_ne; exact Hne|reflexivity].
Qed.

Lemma reload_loop_naming keys this e w :
  _naming (reload_loop keys this e) !! w
  = if decide (w ∈ keys)
    then reloaded_name (_naming this !! w) (localtmp_getOne (nameKey w) e)
    else _naming this !! w.
Proof.
  revert this. induction keys as [|k keys IH]; intros this; cbn [reload_loop].
  - destruct (decide (w ∈ [])) as [Hin|_]; [inversion Hin|reflexivity].
  - unfold t_in. destruct (bool_decide (is_Some (_naming this !! k))) eqn:Hk.
    + apply bool_decide_eq_true in Hk.
      rewrite IH, (reload_write_naming k this e w Hk).
      destruct (decide (k = w)) as [<-|Hne].
      * rewrite reloaded_name_again.
        destruct (decide (k ∈ k :: keys)) as [_|Hnot];
          [|exfalso; apply Hnot, list_elem_of_here].
        destruct (decide (k ∈ keys)); reflexivity.
      * destruct (decide (w ∈ keys)) as [Hin|Hnot], (decide (w ∈ k :: keys)) as [Hin'|Hnot'];
          try reflexivity.
        -- exfalso. apply Hnot', list_elem_of_further, Hin.
        -- exfalso. apply elem_of_cons in Hin'. destruct Hin'; [congruence|contradiction].
    + apply bool_decide_eq_false in Hk. rewrite IH.
      assert (_naming this !! k = None) as Hnone by (apply eq_None_not_Some; exact Hk).
      destruct (decide (w ∈ keys)) as [Hin|Hnot], (decide (w ∈ k :: keys)) as [Hin'|Hnot'];
        try reflexivity.
      * exfalso. apply Hnot', list_elem_of_further, Hin.
      * apply elem_of_cons in Hin'. destruct Hin' as [->|Hin']; [|contradiction].
        rewrite Hnone. reflexivity.
Qed.

(** X4: [reloadNamesFromTemporaryStore()], run to its end, changes only
    name records: a window without a name record gets none; a window with
    one gets the name the store holds under ["window<w>"] when that is a
    non-empty string, and keeps the record it has otherwise (a missing or
    empty stored name never clears a name). *)
Theorem reload_overwrites_names_from_store (this : TRelativeOrder) (e : Env) :
  let this' := reloadNamesFromTemporaryStore this e in
  (forall w, _naming this' !! w
             = reloaded_name (_naming this !! w) (localtmp_getOne (nameKey w) e))
  /\ _worder this' = _worder this
  /\ _order this' = _order this
  /\ _active this' = _active this
  /\ _focusedWindow this' = _focusedWindow this.
Proof.
  intros this'. subst this'. unfold reloadNamesFromTemporaryStore.
  destruct (reload_loop_frame (for_in_keys (_naming this)) this e) as (HW & HO & HA & _).
  repeat split; try assumption; [|apply reload_loop_focus].
  intros w. rewrite reload_loop_naming.
  destruct (decide (w ∈ for_in_keys (_naming this))) as [Hin|Hnot]; [reflexivity|].
  rewrite for_in_keys_elem in Hnot. apply eq_None_not_Some in Hnot.
  rewrite Hnot. reflexivity.
Qed.

Lemma lit_inj s1 s2 : lit s1 = lit s2 -> s1 = s2.
Proof.
  revert s2. induction s1 as [|c1 s1 IH]; intros [|c2 s2] H; simpl in H;
    try discriminate; [reflexivity|].
  injection H as Hc Hs. f_equal; [|apply IH, Hs].
  rewrite <- (Ascii.ascii_N_embedding c1), <- (Ascii.ascii_N_embedding c2), Hc. reflexivity.
Qed.

Lemma nameKey_inj w w' : nameKey w = nameKey w' -> w = w'.
Proof.
  unfold nameKey, Number_toString. intros H.
  apply app_inv_head, lit_inj in H. apply (inj pretty), H.
Qed.

(** X5: two windows never share a store key (["window<w>"] determines
    [w]), so [setName(w, name)] leaves the stored name of every other
    window, and every other key of the store, as it is. *)
Theorem setName_keeps_other_stored_names (w : Z) (name : jsstring)
    (this : TRelativeOrder) (e : Env) :
  (forall w', nameKey w = nameKey w' -> w = w')
  /\ (forall w', w' <> w ->
        localtmp_getOne (nameKey w') (snd (setName w name this e))
        = localtmp_getOne (nameKey w') e)
  /\ (forall key, key <> nameKey w ->
        localtmp_getOne key (snd (setName w name this e)) = localtmp_getOne key e).
Proof.
  assert (forall key, key <> nameKey w ->
            localtmp_getOne key (snd (setName w name this e)) = localtmp_getOne key e) as Hkey.
  { intros key Hne. unfold setName, localtmp_getOne.
    destruct (decide (trim name = lit "")); simpl.
    - apply lookup_delete_ne. congruence.
    - apply lookup_insert_ne. congruence. }
  split; [intros w'; apply nameKey_inj|]. split; [|exact Hkey].
  intros w' Hne. apply Hkey. intros H. apply nameKey_inj in H. contradiction.
Qed.

Lemma setName_keeps_other_stored_names_witness :
  2 <> 1
  /\ localtmp_getOne (nameKey 2)
       (snd (setName 1 (lit "Work") constructor (mkEnv {[nameKey 2 := lit "Home"]} [])))
     = Some (lit "Home").
Proof.
  assert (2 <> 1) as H by discriminate.
  split; [exact H|].
  exact (proj1 (proj2 (setName_keeps_other_stored_names 1 (lit "Work") constructor
                         (mkEnv {[nameKey 2 := lit "Home"]} []))) 2 H).
Defined.

Lemma call_env c σ : is_setName c = false -> snd (snd (call c σ)) = snd σ.
Proof.
  destruct σ as [this e]. destruct c; simpl; intros H; try reflexivity; try discriminate H.
  - destruct (appendTabToWindow windowId t inferActive this); reflexivity.
  - destruct (removeTabFromWindow windowId tabId this); reflexivity.
  - destruct (insertTabIntoWindow windowId tabId i this); reflexivity.
  - destruct (moveTabWithinWindow windowId tabId i this); reflexivity.
Qed.

Lemma trim_nil : trim [] = [].
Proof. reflexivity. Qed.

Lemma calls_keep_stored_name w cs σ :
  forallb (fun c => negb (renames w c)) cs = true ->
  localtmp_getOne (nameKey w) (snd (calls cs σ)) = localtmp_getOne (nameKey w) (snd σ).
Proof.
  revert σ. induction cs as [|c cs IH]; intros σ H; [reflexivity|].
  simpl in H. apply andb_true_iff in H. destruct H as [Hc Hcs].
  simpl. rewrite (IH _ Hcs). apply negb_true_iff in Hc.
  destruct (is_setName c) eqn:Hset; [|rewrite call_env by exact Hset; reflexivity].
  destruct c; try discriminate Hset. simpl in Hc. apply bool_decide_eq_false in Hc.
  destruct σ as [this e]. simpl.
  unfold setName, localtmp_getOne.
  destruct (decide (trim name = lit "")); simpl.
  - apply lookup_delete_ne. intros Hk. apply nameKey_inj in Hk. contradiction.
  - apply lookup_insert_ne. intros Hk. apply nameKey_inj in Hk. contradiction.
Qed.

(** X7: a name set by [setName(w, name)] (not blank) stays in the store
    through every later call that is not a [setName] for [w] -
    [unregisterWindow(w)] and [registerWindow(w)] included - and a
    reload gives it back: whenever [w] has a name record then,
    [getName(w)] is [name] after [reloadNamesFromTemporaryStore()]. *)
Theorem stored_name_survives (w : Z) (name : jsstring) (cs : list Call) (σ : World) :
  trim name <> lit "" ->
  forallb (fun c => negb (renames w c)) cs = true ->
  let σ' := calls cs (snd (call (SetName w name) σ)) in
  localtmp_getOne (nameKey w) (snd σ') = Some name
  /\ (is_Some (_naming (fst σ') !! w) ->
      getName w (reloadNamesFromTemporaryStore (fst σ') (snd σ')) = Some name).
Proof.
  intros Hname Hcs σ'.
  assert (localtmp_getOne (nameKey w) (snd σ') = Some name) as Hstored.
  { subst σ'. rewrite (calls_keep_stored_name w cs _ Hcs).
    destruct σ as [this e]. simpl. unfold setName, localtmp_getOne.
    rewrite decide_False by exact Hname. simpl. apply lookup_insert_eq. }
  split; [exact Hstored|]. intros [old Hold].
  unfold getName, reloadNamesFromTemporaryStore.
  rewrite reload_loop_naming, decide_True
    by (apply for_in_keys_elem; eexists; exact Hold).
  rewrite Hold, Hstored. destruct name as [|c rest]; [|reflexivity].
  exfalso. apply Hname. reflexivity.
Qed.

Lemma stored_name_survives_witness :
  trim (lit "Work") <> lit ""
  /\ forallb (fun c => negb (renames 1 c))
       [UnregisterWindow 1; SetName 2 (lit "Home"); RegisterWindow 1] = true
  /\ getName 1
       (fst (calls [UnregisterWindow 1; SetName 2 (lit "Home"); RegisterWindow 1]
               (snd (call (SetName 1 (lit "Work")) fresh)))) = None
  /\ getName 1
       (reloadNamesFromTemporaryStore
          (fst (calls [UnregisterWindow 1; SetName 2 (lit "Home"); RegisterWindow 1]
                  (snd (call (SetName 1 (lit "Work")) fresh))))
          (snd (calls [UnregisterWindow 1; SetName 2 (lit "Home"); RegisterWindow 1]
                  (snd (call (SetName 1 (lit "Work")) fresh)))))
     = Some (lit "Work").
Proof.
  assert (trim (lit "Work") <> lit "") as H1 by (vm_compute; discriminate).
  assert (forallb (fun c => negb (renames 1 c))
            [UnregisterWindow 1; SetName 2 (lit "Home"); RegisterWindow 1] = true) as H2
    by reflexivity.
  split; [exact H1|]. split; [exact H2|]. split; [vm_compute; reflexivity|].
  apply (proj2 (stored_name_survives 1 (lit "Work") _ fresh H1 H2)).
  vm_compute. eexists; reflexivity.
Defined.

(** ** Registration and the other windows *)

Lemma remove_appended w l : w ∉ l -> T1DLinkedList.remove w (T1DLinkedList.append w l) = l.
Proof.
  unfold T1DLinkedList.append. induction l as [|x l IH]; intros Hnot; simpl.
  - rewrite decide_True by reflexivity. reflexivity.
  - rewrite not_elem_of_cons in Hnot. destruct Hnot as [Hne Hnot].
    rewrite decide_False by congruence. f_equal. apply IH, Hnot.
Qed.

(** X8: [registerWindow(w)] and [unregisterWindow(w)] leave every other
    window as it is: its tab sequence, active tab, name and registration
    are unchanged, and the other windows keep their relative order in the
    window order. *)
Theorem registration_leaves_other_windows (w w' : Z) (this : TRelativeOrder) :
  w' <> w ->
  (let this' := registerWindow w this in
   _order this' !! w' = _order this !! w'
   /\ getActiveTab w' this' = getActiveTab w' this
   /\ getName w' this' = getName w' this
   /\ hasWindow w' this' = hasWindow w' this
   /\ filter (fun x => x <> w) (T1DLinkedList.toArray (_worder this'))
      = filter (fun x => x <> w) (T1DLinkedList.toArray (_worder this)))
  /\
  (let this' := unregisterWindow w this in
   _order this' !! w' = _order this !! w'
   /\ getActiveTab w' this' = getActiveTab w' this
   /\ getName w' this' = getName w' this
   /\ hasWindow w' this' = hasWindow w' this
   /\ filter (fun x => x <> w) (T1DLinkedList.toArray (_worder this'))
      = filter (fun x => x <> w) (T1DLinkedList.toArray (_worder this))).
Proof.
  intros Hne. unfold getActiveTab, getName, hasWindow, t_in, T1DLinkedList.toArray.
  split; simpl.
  - rewrite !lookup_insert_ne by congruence. repeat split.
    unfold T1DLinkedList.append.
    rewrite filter_app, filter_cons_False by (intros H; apply H; reflexivity).
    rewrite filter_nil, app_nil_r. reflexivity.
  - rewrite !lookup_delete_ne by congruence. repeat split. apply remove_others.
Qed.

Lemma registration_leaves_other_windows_witness :
  2 <> 1
  /\ getActiveTab 2 (unregisterWindow 1 (setActiveTab 2 20 (registerWindow 2 (registerWindow 1 constructor))))
     = getActiveTab 2 (setActiveTab 2 20 (registerWindow 2 (registerWindow 1 constructor))).
Proof.
  assert (2 <> 1) as H by discriminate.
  split; [exact H|].
  exact (proj1 (proj2 (proj2 (registration_leaves_other_windows 1 2
           (setActiveTab 2 20 (registerWindow 2 (registerWindow 1 constructor))) H)))).
Defined.

(** X9: for a window without any record and not in the window order,
    [registerWindow(w)] followed by [unregisterWindow(w)] gives back the
    very state the tracker was in. *)
Theorem register_then_unregister_restores (w : Z) (this : TRelativeOrder) :
  forgotten w this ->
  w ∉ T1DLinkedList.toArray (_worder this) ->
  unregisterWindow w (registerWindow w this) = this.
Proof.
  intros (Ho & Ha & Hn) Hw. unfold T1DLinkedList.toArray in Hw.
  unfold unregisterWindow, registerWindow, set_worder, set_naming, set_active, set_order.
  simpl. rewrite (remove_appended _ _ Hw), !delete_insert_id by assumption.
  apply record_eta.
Qed.

Lemma register_then_unregister_restores_witness :
  forgotten 2 (registerWindow 1 constructor)
  /\ (2 ∉ T1DLinkedList.toArray (_worder (registerWindow 1 constructor)))
  /\ unregisterWindow 2 (registerWindow 2 (registerWindow 1 constructor))
     = registerWindow 1 constructor.
Proof.
  assert (forgotten 2 (registerWindow 1 constructor)) as H1 by (repeat split).
  assert (2 ∉ T1DLinkedList.toArray (_worder (registerWindow 1 constructor))) as H2.
  { intros H. apply list_elem_of_singleton in H. discriminate H. }
  split; [exact H1|]. split; [exact H2|].
  exact (register_then_unregister_restores 2 _ H1 H2).
Defined.

(** ** Serialization, the other way round *)

(** X10: for every plain structure [root],
    [fromSerializable(root).toSerializable()] is [root] again: the window
    order, every tab array, the active tabs, the focused window and the
    names, also when [root] is not the image of a tracker a sequence of
    calls can build (a window order that lists windows without tab array
    is taken as it is). *)
Theorem toSerializable_fromSerializable (root : Root.t) :
  toSerializable (fromSerializable root) = root.
Proof.
  rewrite fromSerializable_fields. unfold toSerializable. simpl.
  rewrite for_in_copy_empty, <- map_fmap_compose.
  unfold T1DLinkedList.fromArray, T1DLinkedList.toArray.
  rewrite (map_fmap_ext _ id) by (intros; reflexivity).
  rewrite map_fmap_id. destruct root; reflexivity.
Qed.

(** ** Tab calls on a registered window *)

(** X11: on a registered window, [removeTabFromWindow],
    [insertTabIntoWindow] and [moveTabWithinWindow] return and change
    nothing but the tab sequence of that window: the window order, the
    names, the focused window, the tabs of the other windows, the store
    and every active-tab record stay as they are - so after
    [removeTabFromWindow(w, t)] for the active tab [t] of [w],
    [getActiveTab(w)] is still [t]. *)
Theorem direct_tab_calls_change_one_sequence (w tabId i : Z) (c : Call) (σ : World) :
  hasWindow w (fst σ) = true ->
  c ∈ direct_tab_calls w tabId i ->
  fst (call c σ) = Return tt
  /\ hasWindow w (fst (snd (call c σ))) = true
  /\ _active (fst (snd (call c σ))) = _active (fst σ)
  /\ _naming (fst (snd (call c σ))) = _naming (fst σ)
  /\ _worder (fst (snd (call c σ))) = _worder (fst σ)
  /\ _focusedWindow (fst (snd (call c σ))) = _focusedWindow (fst σ)
  /\ snd (snd (call c σ)) = snd σ
  /\ forall w', w' <> w -> _order (fst (snd (call c σ))) !! w' = _order (fst σ) !! w'.
Proof.
  destruct σ as [this e]. simpl. rewrite !hasWindow_true. intros [l Hl] Hc.
  unfold direct_tab_calls in Hc. rewrite !elem_of_cons in Hc.
  destruct Hc as [->|[->|[->|Hc]]]; [| | |inversion Hc]; simpl;
    unfold removeTabFromWindow, insertTabIntoWindow, moveTabWithinWindow;
    rewrite (with_tabs_registered _ _ _ _ Hl); simpl;
    rewrite lookup_insert_eq; repeat split; eauto;
    intros w' Hne; apply lookup_insert_ne; congruence.
Qed.

Lemma direct_tab_calls_change_one_sequence_witness :
  let σ := calls [RegisterWindow 1; AppendTabToWindow 1 (Tab.mk 10 0 true) true] fresh in
  hasWindow 1 (fst σ) = true
  /\ RemoveTabFromWindow 1 10 ∈ direct_tab_calls 1 10 0
  /\ getAllAs2DArray (fst (snd (call (RemoveTabFromWindow 1 10) σ))) = Return [[]]
  /\ getActiveTab 1 (fst (snd (call (RemoveTabFromWindow 1 10) σ))) = Some 10.
Proof.
  intros σ.
  assert (hasWindow 1 (fst σ) = true) as H1 by (vm_compute; reflexivity).
  assert (RemoveTabFromWindow 1 10 ∈ direct_tab_calls 1 10 0) as H2 by apply list_elem_of_here.
  split; [exact H1|]. split; [exact H2|]. split; [vm_compute; reflexivity|].
  unfold getActiveTab.
  rewrite (proj1 (proj2 (proj2 (direct_tab_calls_change_one_sequence 1 10 0 _ σ H1 H2)))).
  vm_compute. reflexivity.
Defined.

(** ** The order of registration *)

Lemma calls_cons c cs σ : calls (c :: cs) σ = calls cs (snd (call c σ)).
Proof. reflexivity. Qed.

Lemma registered_in_turn ws σ :
  let this' := fst (calls (RegisterWindow <$> ws) σ) in
  _worder this' = _worder (fst σ) ++ ws
  /\ (forall w, w ∈ ws -> _order this' !! w = Some T1DLinkedList.new)
  /\ (forall w, w ∉ ws -> _order this' !! w = _order (fst σ) !! w).
Proof.
  revert σ. induction ws as [|w0 ws IH]; intros [this e].
  - simpl. rewrite app_nil_r. repeat split. intros w Hw. inversion Hw.
  - rewrite fmap_cons, calls_cons.
    destruct (IH (snd (call (RegisterWindow w0) (this, e)))) as (HW & Hin & Hout).
    cbv zeta. split; [|split].
    + rewrite HW. simpl. unfold T1DLinkedList.append. rewrite <- app_assoc. reflexivity.
    + intros w Hw. destruct (decide (w ∈ ws)) as [Hws|Hws]; [apply Hin, Hws|].
      rewrite (Hout w Hws). apply elem_of_cons in Hw.
      destruct Hw as [->|Hw]; [apply lookup_insert_eq|contradiction].
    + intros w Hw. rewrite not_elem_of_cons in Hw. destruct Hw as [Hne Hw].
      rewrite (Hout w Hw). simpl. apply lookup_insert_ne. congruence.
Qed.

Lemma rows_of_new_windows (this : TRelativeOrder) ks :
  (forall w, w ∈ ks -> _order this !! w = Some T1DLinkedList.new) ->
  (fun w => T1DLinkedList.toArray (default T1DLinkedList.new (_order this !! w))) <$> ks
  = replicate (length ks) [].
Proof.
  induction ks as [|k ks IH]; intros Hks; [reflexivity|]. simpl.
  rewrite (Hks k) by apply list_elem_of_here. simpl. f_equal.
  apply IH. intros w Hw. apply Hks, list_elem_of_further, Hw.
Qed.

(** X12: windows are listed in the order they were registered:
    registering the windows [ws] in turn extends the window order by
    [ws], and on a new tracker [getAllAs2DArray()] then returns one empty
    row for each of them. *)
Theorem windows_listed_in_registration_order (ws : list Z) (σ : World) :
  T1DLinkedList.toArray (_worder (fst (calls (RegisterWindow <$> ws) σ)))
  = T1DLinkedList.toArray (_worder (fst σ)) ++ ws
  /\ getAllAs2DArray (fst (calls (RegisterWindow <$> ws) fresh))
     = Return (replicate (length ws) []).
Proof.
  split; [apply (registered_in_turn ws σ)|].
  destruct (registered_in_turn ws fresh) as (HW & Hin & _).
  unfold getAllAs2DArray, T1DLinkedList.toArray. rewrite HW. simpl.
  rewrite getAllAs2DArray_loop_rows by (intros w Hw; rewrite (Hin w Hw); eauto).
  simpl. f_equal. apply rows_of_new_windows, Hin.
Qed.

(** ** The reload as a task *)

Lemma reload_interleaved_run evs σ :
  reload_interleaved evs σ = run_events evs (σ, reload_start (fst σ)).
Proof. reflexivity. Qed.

Lemma reload_advance_awaits keys this w :
  _naming this !! w = None -> awaits w (reload_advance keys this) = false.
Proof.
  intros Hnone. induction keys as [|k keys IH]; simpl; [reflexivity|].
  unfold t_in. destruct (bool_decide (is_Some (_naming this !! k))) eqn:Hk; [|exact IH].
  simpl. apply bool_decide_eq_false. intros ->.
  apply bool_decide_eq_true in Hk. rewrite Hnone in Hk. destruct Hk; discriminate.
Qed.

Lemma call_keeps_no_name w c σ :
  _naming (fst σ) !! w = None -> writes_name_of w c = false ->
  _naming (fst (snd (call c σ))) !! w = None.
Proof.
  destruct σ as [this e]. simpl. intros Hnone Hc. destruct c; simpl in *; try exact Hnone.
  - destruct (reload_loop_frame (for_in_keys (_naming this)) this e) as (_ & _ & _ & HN).
    apply eq_None_not_Some. unfold reloadNamesFromTemporaryStore. rewrite HN, Hnone.
    intros []; discriminate.
  - apply bool_decide_eq_false in Hc. unfold setName.
    destruct (decide (trim name = lit "")); simpl;
      rewrite lookup_insert_ne by exact Hc; exact Hnone.
  - apply bool_decide_eq_false in Hc. rewrite lookup_insert_ne by exact Hc. exact Hnone.
  - destruct (decide (windowId = w)) as [->|Hne];
      [apply lookup_delete_eq|rewrite lookup_delete_ne by exact Hne; exact Hnone].
  - destruct (appendTabToWindow_frame windowId t inferActive this) as (_ & HN & _).
    destruct (appendTabToWindow windowId t inferActive this). simpl in *.
    rewrite HN. exact Hnone.
  - destruct (with_tabs_frame windowId (T1DLinkedList.remove tabId) this) as (_ & _ & HN & _).
    unfold removeTabFromWindow.
    destruct (with_tabs windowId (T1DLinkedList.remove tabId) this). simpl in *.
    rewrite HN. exact Hnone.
  - destruct (with_tabs_frame windowId (T1DLinkedList.insert tabId i) this) as (_ & _ & HN & _).
    unfold insertTabIntoWindow.
    destruct (with_tabs windowId (T1DLinkedList.insert tabId i) this). simpl in *.
    rewrite HN. exact Hnone.
  - destruct (with_tabs_frame windowId (T1DLinkedList.move tabId i) this) as (_ & _ & HN & _).
    unfold moveTabWithinWindow.
    destruct (with_tabs windowId (T1DLinkedList.move tabId i) this). simpl in *.
    rewrite HN. exact Hnone.
Qed.

Lemma step_keeps_no_name w ev st :
  _naming (fst (fst st)) !! w = None -> awaits w (snd st) = false ->
  event_writes_name_of w ev = false ->
  _naming (fst (fst (step ev st))) !! w = None /\ awaits w (snd (step ev st)) = false.
Proof.
  destruct st as [[this e] task]. simpl. intros Hnone Htask Hev.
  destruct ev as [|c]; simpl.
  - destruct task as [k rest|]; simpl; [|split; assumption].
    simpl in Htask. apply bool_decide_eq_false in Htask.
    assert (_naming (reload_write k (localtmp_getOne (nameKey k) e) this) !! w = None) as H.
    { unfold reload_write. destruct (truthy _); simpl; [|exact Hnone].
      rewrite lookup_insert_ne by exact Htask. exact Hnone. }
    split; [exact H|]. apply reload_advance_awaits, H.
  - split; [|exact Htask]. apply (call_keeps_no_name w c (this, e) Hnone Hev).
Qed.

(** X13: the reload writes a name record only for the window whose
    lookup it is waiting for: once a window [w] has no name record and
    the task is not suspended at the lookup of [w], no interleaving of
    answers and callbacks gives [w] a name record, unless a callback
    itself calls [registerWindow(w)] or [setName(w, _)]. *)
Theorem reload_spares_windows_not_awaited
    (w : Z) (evs : list Event) (σ : World) (task : ReloadTask) :
  _naming (fst σ) !! w = None ->
  awaits w task = false ->
  forallb (fun ev => negb (event_writes_name_of w ev)) evs = true ->
  _naming (fst (fst (run_events evs (σ, task)))) !! w = None
  /\ getName w (fst (fst (run_events evs (σ, task)))) = None.
Proof.
  intros Hnone Htask Hevs.
  assert (_naming (fst (fst (run_events evs (σ, task)))) !! w = None
          /\ awaits w (snd (run_events evs (σ, task))) = false) as [H _].
  { change σ with (fst (σ, task)) in Hnone. change task with (snd (σ, task)) in Htask.
    revert Hnone Htask. generalize (σ, task). clear σ task.
    induction evs as [|ev evs IH]; intros st Hnone Htask; [split; assumption|].
    simpl in Hevs. apply andb_true_iff in Hevs. destruct Hevs as [Hev Hevs].
    apply negb_true_iff in Hev.
    destruct (step_keeps_no_name w ev st Hnone Htask Hev) as [H1 H2].
    apply (IH Hevs (step ev st) H1 H2). }
  split; [exact H|]. unfold getName. rewrite H. reflexivity.
Qed.

Lemma reload_spares_windows_not_awaited_witness :
  let σ := calls [RegisterWindow 1; SetName 1 (lit "Work");
                  RegisterWindow 2; SetName 2 (lit "Home")] fresh in
  let st := run_events [Callback (UnregisterWindow 2)] (σ, reload_start (fst σ)) in
  _naming (fst (fst st)) !! 2 = None
  /\ awaits 2 (snd st) = false
  /\ forallb (fun ev => negb (event_writes_name_of 2 ev)) [Resume; Resume] = true
  /\ getName 2 (fst (fst (run_events [Resume; Resume] st))) = None.
Proof.
  intros σ st.
  assert (_naming (fst (fst st)) !! 2 = None) as H1 by (vm_compute; reflexivity).
  assert (awaits 2 (snd st) = false) as H2 by (vm_compute; reflexivity).
  assert (forallb (fun ev => negb (event_writes_name_of 2 ev)) [Resume; Resume] = true) as H3
    by reflexivity.
  split; [exact H1|]. split; [exact H2|]. split; [exact H3|].
  destruct st as [σ' task'].
  exact (proj2 (reload_spares_windows_not_awaited 2 [Resume; Resume] σ' task' H1 H2 H3)).
Defined.

Lemma reload_advance_pending keys this :
  (pending_lookups (reload_advance keys this) <= length keys)%nat.
Proof.
  induction keys as [|k keys IH]; simpl; [lia|].
  destruct (t_in (_naming this) k); simpl; lia.
Qed.

Lemma step_pending ev st :
  (pending_lookups (snd (step ev st)) + resumes [ev]
   <= Nat.max (resumes [ev]) (pending_lookups (snd st)))%nat.
Proof.
  destruct st as [[this e] task]. destruct ev as [|c]; simpl.
  - destruct task as [k rest|]; simpl; [|lia].
    pose proof (reload_advance_pending rest
                  (reload_write k (localtmp_getOne (nameKey k) e) this)). lia.
  - lia.
Qed.

Lemma run_events_pending evs st :
  (pending_lookups (snd (run_events evs st)) <= pending_lookups (snd st) - resumes evs)%nat.
Proof.
  revert st. induction evs as [|ev evs IH]; intros st; [simpl; lia|].
  change (run_events (ev :: evs) st) with (run_events evs (step ev st)).
  specialize (IH (step ev st)). pose proof (step_pending ev st) as H.
  destruct ev; simpl in *; lia.
Qed.

Lemma resume_uninterrupted n keys this e :
  (length keys <= n)%nat ->
  run_events (replicate n Resume) ((this, e), reload_advance keys this)
  = ((reload_loop keys this e, e), Resolved).
Proof.
  revert n this. induction keys as [|k keys IH]; intros n this Hn.
  - simpl. clear Hn. induction n as [|n IHn]; [reflexivity|exact IHn].
  - simpl. destruct (t_in (_naming this) k).
    + destruct n as [|n]; [simpl in Hn; lia|]. simpl. apply IH. simpl in Hn. lia.
    + apply IH. simpl in Hn. lia.
Qed.

(** X14: the reload always comes to an end: it waits for at most one
    lookup per name record the tracker had when it was called, whatever
    callbacks run in between (windows registered meanwhile are not
    visited); and when nothing runs in between, the task leaves exactly
    the tracker of the loop run in one go. *)
Theorem reload_resolves (evs : list Event) (σ : World) (n : nat) :
  (pending_lookups (reload_start (fst σ)) <= length (for_in_keys (_naming (fst σ))))%nat
  /\ ((length (for_in_keys (_naming (fst σ))) <= resumes evs)%nat ->
      snd (reload_interleaved evs σ) = Resolved)
  /\ ((length (for_in_keys (_naming (fst σ))) <= n)%nat ->
      reload_interleaved (replicate n Resume) σ
      = ((reloadNamesFromTemporaryStore (fst σ) (snd σ), snd σ), Resolved)).
Proof.
  split; [apply reload_advance_pending|]. split.
  - intros Hn. rewrite reload_interleaved_run.
    pose proof (run_events_pending evs (σ, reload_start (fst σ))) as H.
    pose proof (reload_advance_pending (for_in_keys (_naming (fst σ))) (fst σ)) as H'.
    unfold reload_start in *. simpl in H.
    destruct (snd (run_events evs (σ, reload_advance (for_in_keys (_naming (fst σ))) (fst σ))))
      eqn:Htask; [simpl in H; lia|reflexivity].
  - intros Hn. rewrite reload_interleaved_run. destruct σ as [this e].
    apply (resume_uninterrupted n _ this e Hn).
Qed.

Lemma reload_resolves_witness :
  let σ := calls [RegisterWindow 1; SetName 1 (lit "Work"); RegisterWindow 2] fresh in
  (length (for_in_keys (_naming (fst σ)))
   <= resumes [Resume; Callback (RegisterWindow 3); Resume])%nat
  /\ snd (reload_interleaved [Resume; Callback (RegisterWindow 3); Resume] σ) = Resolved.
Proof.
  intros σ.
  assert (length (for_in_keys (_naming (fst σ)))
          <= resumes [Resume; Callback (RegisterWindow 3); Resume])%nat as H
    by (vm_compute; lia).
  split; [exact H|].
  exact (proj1 (proj2 (reload_resolves [Resume; Callback (RegisterWindow 3); Resume] σ 0)) H).
Defined.

(** ** Records of registered windows *)

Lemma appendTabToWindow_active_kept w t inferActive this w' :
  is_Some (_active this !! w') ->
  is_Some (_active (snd (appendTabToWindow w t inferActive this)) !! w').
Proof.
  intros H. unfold appendTabToWindow, with_tabs.
  destruct (_order this !! w); simpl; [|exact H].
  destruct (Tab.active t && inferActive); simpl; [|exact H].
  destruct (decide (w = w')) as [<-|Hne];
    rewrite ?lookup_insert_eq, ?lookup_insert_ne by assumption; eauto.
Qed.

Lemma call_registered_have_records c σ :
  registered_have_records (fst σ) -> registered_have_records (fst (snd (call c σ))).
Proof.
  destruct σ as [this e]. unfold registered_have_records, getActiveTab.
  setoid_rewrite hasWindow_true. intros Hrec.
  destruct c; simpl in *.
  - exact Hrec.
  - destruct (reload_loop_frame (for_in_keys (_naming this)) this e) as (_ & HO & HA & HN).
    unfold reloadNamesFromTemporaryStore. intros w. rewrite HO, HA, HN. apply Hrec.
  - destruct (setName_frame windowId name this e) as (_ & HO & HA & HN).
    intros w. rewrite HO, HA, HN. intros H. destruct (Hrec w H) as [H1 H2]. tauto.
  - intros w H. destruct (Hrec w H) as [H1 H2]. split; [|exact H2].
    destruct (decide (parentWindowId = w)) as [<-|Hne];
      rewrite ?lookup_insert_eq, ?lookup_insert_ne by assumption; eauto.
  - intros w. destruct (decide (windowId = w)) as [<-|Hne];
      rewrite ?lookup_insert_eq, ?lookup_insert_ne by assumption; [eauto|apply Hrec].
  - intros w. destruct (decide (windowId = w)) as [<-|Hne];
      rewrite ?lookup_delete_eq, ?lookup_delete_ne by assumption; [|apply Hrec].
    intros []; discriminate.
  - pose proof (appendTabToWindow_active_kept windowId t inferActive this) as HA.
    destruct (appendTabToWindow_frame windowId t inferActive this) as (_ & HN & HO & _).
    destruct (appendTabToWindow windowId t inferActive this) as [r this']. simpl in *.
    intros w. rewrite HN, HO. intros H. destruct (Hrec w H) as [H1 H2].
    split; [apply HA, H1|exact H2].
  - destruct (with_tabs_frame windowId (T1DLinkedList.remove tabId) this) as (_ & HA & HN & HO).
    unfold removeTabFromWindow.
    destruct (with_tabs windowId (T1DLinkedList.remove tabId) this) as [r this']. simpl in *.
    intros w. rewrite HA, HN, HO. apply Hrec.
  - destruct (with_tabs_frame windowId (T1DLinkedList.insert tabId i) this) as (_ & HA & HN & HO).
    unfold insertTabIntoWindow.
    destruct (with_tabs windowId (T1DLinkedList.insert tabId i) this) as [r this']. simpl in *.
    intros w. rewrite HA, HN, HO. apply Hrec.
  - destruct (with_tabs_frame windowId (T1DLinkedList.move tabId i) this) as (_ & HA & HN & HO).
    unfold moveTabWithinWindow.
    destruct (with_tabs windowId (T1DLinkedList.move tabId i) this) as [r this']. simpl in *.
    intros w. rewrite HA, HN, HO. apply Hrec.
Qed.

(** X19: in every state reached from a new tracker by any sequence of
    calls, a registered window has an active-tab record and a name
    record: [getActiveTab(w)] is never undefined while [hasWindow(w)]
    holds. *)
Theorem registered_windows_have_records (cs : list Call) :
  registered_have_records (fst (calls cs fresh)).
Proof.
  assert (forall σ, registered_have_records (fst σ) ->
                    registered_have_records (fst (calls cs σ))) as H.
  { induction cs as [|c cs IH]; intros σ Hσ; [exact Hσ|].
    rewrite calls_cons. apply IH, call_registered_have_records, Hσ. }
  apply H. intros w Hw. vm_compute in Hw. discriminate Hw.
Qed.

(** ** Blank names *)

Lemma trimStart_nil s : trimStart s = [] <-> forallb isWhiteSpace s = true.
Proof.
  induction s as [|c s IH]; simpl; [tauto|].
  destruct (isWhiteSpace c); simpl; [exact IH|]. split; discriminate.
Qed.

Lemma trimStart_stops s c s' : trimStart s = c :: s' -> isWhiteSpace c = false.
Proof.
  induction s as [|x s IH]; simpl; [discriminate|].
  destruct (isWhiteSpace x) eqn:Hx; [exact IH|]. intros H. injection H as -> _. exact Hx.
Qed.

Lemma trim_blank s : trim s = [] <-> forallb isWhiteSpace s = true.
Proof.
  unfold trim, trimEnd. split.
  - intros H. apply trimStart_nil.
    destruct (trimStart s) as [|c s'] eqn:Hs; [reflexivity|].
    apply trimStart_stops in Hs.
    assert (trimStart (rev (c :: s')) = []) as Hrev.
    { apply (f_equal (@rev N)) in H. rewrite rev_involutive in H. exact H. }
    apply trimStart_nil in Hrev. rewrite forallb_forall in Hrev.
    rewrite (Hrev c) in Hs; [discriminate|]. apply in_rev. rewrite rev_involutive. left. reflexivity.
  - intros H. apply trimStart_nil in H. rewrite H. reflexivity.
Qed.

(** X20: [setName(w, name)] leaves the window without a name exactly
    when every code unit of [name] is white space or a line terminator
    (the empty string included); a name with any other character is kept,
    untrimmed. *)
Theorem setName_clears_exactly_blank_names
    (w : Z) (name : jsstring) (this : TRelativeOrder) (e : Env) :
  (getName w (fst (setName w name this e)) = None <-> forallb isWhiteSpace name = true)
  /\ (getName w (fst (setName w name this e)) = Some name
      <-> forallb isWhiteSpace name = false).
Proof.
  pose proof (trim_blank name) as Hblank.
  unfold setName, getName. destruct (decide (trim name = lit "")) as [Ht|Ht]; simpl;
    rewrite lookup_insert_eq; simpl.
  - apply Hblank in Ht. rewrite Ht. split; split; try discriminate; reflexivity.
  - destruct (forallb isWhiteSpace name); [exfalso; apply Ht, Hblank; reflexivity|].
    split; split; try discriminate; reflexivity.
Qed.

(** * The manifest generator *)

Section GenManifestProofs.
Import GenManifest.
Implicit Types (m : list (string * json)) (k key : string) (v : json).

Lemma prop_get_set_eq key v m : prop_get key (prop_set key v m) = Some v.
Proof.
  unfold prop_get. induction m as [|[k v'] m IH]; simpl.
  - rewrite bool_decide_eq_true_2 by reflexivity. reflexivity.
  - destruct (decide (k = key)) as [->|Hne]; simpl.
    + rewrite bool_decide_eq_true_2 by reflexivity. reflexivity.
    + rewrite bool_decide_eq_false_2 by exact Hne. exact IH.
Qed.

Lemma prop_get_set_ne key k v m : k <> key -> prop_get k (prop_set key v m) = prop_get k m.
Proof.
  intros Hk. unfold prop_get. induction m as [|[k' v'] m IH]; simpl.
  - rewrite bool_decide_eq_false_2 by congruence. reflexivity.
  - destruct (decide (k' = key)) as [->|Hne]; simpl.
    + rewrite !bool_decide_eq_false_2 by congruence. reflexivity.
    + destruct (bool_decide (k' = k)); [reflexivity|exact IH].
Qed.

Lemma push_permission_array x m ps :
  prop_get "permissions" m = Some (JArray ps) ->
  push_permission x m = Return (prop_set "permissions" (JArray (ps ++ [JString x])) m).
Proof. intros H. unfold push_permission. rewrite H. reflexivity. Qed.

Lemma push_permission_throws x m :
  (forall ps, prop_get "permissions" m <> Some (JArray ps)) ->
  push_permission x m = Throw TypeError.
Proof.
  intros H. unfold push_permission.
  destruct (prop_get "permissions" m) as [[]|] eqn:Hp; try reflexivity.
  exfalso. eapply H. reflexivity.
Qed.

Lemma switch_target_gecko argv target m :
  argv !! 2%nat = Some target -> target = "webext" \/ target = "firefox" ->
  switch_target argv m
  = match push_permission "<all_urls>" (prop_set "applications" gecko m) with
    | Return m' => push_permission "contextualIdentities" m'
    | Throw e => Throw e
    end.
Proof.
  intros Hargv Ht. unfold switch_target. rewrite Hargv.
  destruct Ht as [-> | ->]; reflexivity.
Qed.

(** X15: for the target ["webext"] or ["firefox"] and a manifest whose
    [permissions] is an array, the script writes a manifest with
    ["<all_urls>"] and ["contextualIdentities"] added at the end of
    [permissions] (also when they are in it already), the gecko
    [applications] entry, [version] set to [EXT_VERSION], and every other
    property as it was. *)
Theorem gecko_targets_manifest
    (EXT_VERSION : json) (argv : list string) (target : string)
    (manifest : list (string * json)) (ps : list json) :
  argv !! 2%nat = Some target ->
  target = "webext" \/ target = "firefox" ->
  prop_get "permissions" manifest = Some (JArray ps) ->
  exists manifest',
    written (main EXT_VERSION argv manifest) = Return (manifest', indent_of argv)
    /\ prop_get "permissions" manifest'
       = Some (JArray (ps ++ [JString "<all_urls>"; JString "contextualIdentities"]))
    /\ prop_get "applications" manifest' = Some gecko
    /\ prop_get "version" manifest' = Some EXT_VERSION
    /\ forall k, k <> "permissions" -> k <> "applications" -> k <> "version" ->
                 prop_get k manifest' = prop_get k manifest.
Proof.
  intros Hargv Ht Hps. unfold main. simpl.
  rewrite (switch_target_gecko argv target manifest Hargv Ht).
  rewrite (push_permission_array _ _ ps)
    by (rewrite prop_get_set_ne by discriminate; exact Hps).
  rewrite (push_permission_array _ _ (ps ++ [JString "<all_urls>"]))
    by apply prop_get_set_eq.
  eexists. split; [reflexivity|]. split; [|split; [|split]].
  - rewrite prop_get_set_ne, prop_get_set_eq, <- app_assoc by discriminate. reflexivity.
  - rewrite !prop_get_set_ne by discriminate. apply prop_get_set_eq.
  - apply prop_get_set_eq.
  - intros k H1 H2 H3. rewrite !prop_get_set_ne by assumption. reflexivity.
Qed.

Lemma gecko_targets_manifest_witness :
  ["node"; "gen-manifest.js"; "firefox"] !! 2%nat = Some "firefox"
  /\ ("firefox" = "webext" \/ "firefox" = "firefox")
  /\ prop_get "permissions" [("name", JString "Tabby"); ("permissions", JArray [JString "tabs"])]
     = Some (JArray [JString "tabs"])
  /\ exists manifest',
       written (main (JString "1.0") ["node"; "gen-manifest.js"; "firefox"]
                  [("name", JString "Tabby"); ("permissions", JArray [JString "tabs"])])
       = Return (manifest', None).
Proof.
  assert (["node"; "gen-manifest.js"; "firefox"] !! 2%nat = Some "firefox") as H1 by reflexivity.
  assert ("firefox" = "webext" \/ "firefox" = "firefox") as H2 by (right; reflexivity).
  assert (prop_get "permissions"
            [("name", JString "Tabby"); ("permissions", JArray [JString "tabs"])]
          = Some (JArray [JString "tabs"])) as H3 by reflexivity.
  split; [exact H1|]. split; [exact H2|]. split; [exact H3|].
  destruct (gecko_targets_manifest (JString "1.0") _ _ _ _ H1 H2 H3) as (m' & Hm' & _).
  exists m'. exact Hm'.
Defined.

(** X16: for the target ["webext"] or ["firefox"] and a manifest whose
    [permissions] is missing or not an array, the script throws a
    TypeError at the first [push] and writes nothing. *)
Theorem gecko_targets_need_permissions
    (EXT_VERSION : json) (argv : list string) (target : string)
    (manifest : list (string * json)) :
  argv !! 2%nat = Some target ->
  target = "webext" \/ target = "firefox" ->
  (forall ps, prop_get "permissions" manifest <> Some (JArray ps)) ->
  written (main EXT_VERSION argv manifest) = Throw TypeError.
Proof.
  intros Hargv Ht Hps. unfold main. simpl.
  rewrite (switch_target_gecko argv target manifest Hargv Ht).
  rewrite push_permission_throws; [reflexivity|].
  intros ps. rewrite prop_get_set_ne by discriminate. apply Hps.
Qed.

Lemma gecko_targets_need_permissions_witness :
  ["node"; "gen-manifest.js"; "webext"] !! 2%nat = Some "webext"
  /\ ("webext" = "webext" \/ "webext" = "firefox")
  /\ (forall ps, prop_get "permissions" [("name", JString "Tabby")] <> Some (JArray ps))
  /\ written (main (JString "1.0") ["node"; "gen-manifest.js"; "webext"]
                [("name", JString "Tabby")]) = Throw TypeError.
Proof.
  assert (["node"; "gen-manifest.js"; "webext"] !! 2%nat = Some "webext") as H1 by reflexivity.
  assert ("webext" = "webext" \/ "webext" = "firefox") as H2 by (left; reflexivity).
  assert (forall ps, prop_get "permissions" [("name", JString "Tabby")] <> Some (JArray ps))
    as H3 by (intros ps; discriminate).
  split; [exact H1|]. split; [exact H2|]. split; [exact H3|].
  exact (gecko_targets_need_permissions (JString "1.0") _ _ _ H1 H2 H3).
Defined.

(** X17: for every other target the script never throws: for ["chrome"]
    it writes the manifest with [content_security_policy] and [version]
    set and everything else, [permissions] included, as it was; for an
    unknown target, or none at all, it still writes the manifest, with
    only [version] changed - with fewer than three arguments it logs
    "Insufficient number of arguments!" and goes on. *)
Theorem other_targets_manifest
    (EXT_VERSION : json) (argv : list string) (manifest : list (string * json)) :
  argv !! 2%nat <> Some "webext" ->
  argv !! 2%nat <> Some "firefox" ->
  exists manifest',
    written (main EXT_VERSION argv manifest) = Return (manifest', indent_of argv)
    /\ prop_get "version" manifest' = Some EXT_VERSION
    /\ (argv !! 2%nat = Some "chrome" ->
        prop_get "content_security_policy" manifest' = Some chrome_csp
        /\ forall k, k <> "content_security_policy" -> k <> "version" ->
                     prop_get k manifest' = prop_get k manifest)
    /\ (argv !! 2%nat <> Some "chrome" ->
        manifest' = prop_set "version" EXT_VERSION manifest
        /\ forall k, k <> "version" -> prop_get k manifest' = prop_get k manifest)
    /\ ((length argv < 3)%nat ->
        argv !! 2%nat = None
        /\ console (main EXT_VERSION argv manifest) = ["Insufficient number of arguments!"]).
Proof.
  intros Hw Hf. unfold main, switch_target. simpl.
  assert ((length argv < 3)%nat ->
          argv !! 2%nat = None
          /\ (if (length argv <? 3)%nat then ["Insufficient number of arguments!"] else [])
             = ["Insufficient number of arguments!"]) as Hshort.
  { intros Hlen. split; [apply lookup_ge_None; lia|].
    destruct (Nat.ltb_spec (length argv) 3); [reflexivity|lia]. }
  destruct (argv !! 2%nat) as [target|] eqn:Hargv.
  - rewrite (bool_decide_eq_false_2 (target = "webext")) by congruence.
    rewrite (bool_decide_eq_false_2 (target = "firefox")) by congruence. simpl.
    destruct (bool_decide (target = "chrome")) eqn:Hc.
    + apply bool_decide_eq_true in Hc. subst target.
      eexists. split; [reflexivity|]. split; [apply prop_get_set_eq|].
      split; [|split; [congruence|exact Hshort]].
      intros _. split.
      * rewrite prop_get_set_ne by discriminate. apply prop_get_set_eq.
      * intros k H1 H2. rewrite !prop_get_set_ne by assumption. reflexivity.
    + apply bool_decide_eq_false in Hc.
      eexists. split; [reflexivity|]. split; [apply prop_get_set_eq|].
      split; [congruence|]. split; [|exact Hshort].
      intros _. split; [reflexivity|].
      intros k Hk. apply prop_get_set_ne, Hk.
  - eexists. split; [reflexivity|]. split; [apply prop_get_set_eq|].
    split; [discriminate|]. split; [|exact Hshort].
    intros _. split; [reflexivity|].
    intros k Hk. apply prop_get_set_ne, Hk.
Qed.

Lemma other_targets_manifest_witness :
  ["node"; "gen-manifest.js"] !! 2%nat <> Some "webext"
  /\ ["node"; "gen-manifest.js"] !! 2%nat <> Some "firefox"
  /\ exists manifest',
       written (main (JString "1.0") ["node"; "gen-manifest.js"] [("name", JString "Tabby")])
       = Return (manifest', None).
Proof.
  assert (["node"; "gen-manifest.js"] !! 2%nat <> Some "webext") as H1 by discriminate.
  assert (["node"; "gen-manifest.js"] !! 2%nat <> Some "firefox") as H2 by discriminate.
  split; [exact H1|]. split; [exact H2|].
  destruct (other_targets_manifest (JString "1.0") ["node"; "gen-manifest.js"]
              [("name", JString "Tabby")] H1 H2) as (m' & Hm' & _).
  exists m'. exact Hm'.
Defined.

End GenManifestProofs.
